(** * network: framing, handler registration, address book and bootstrap

    A shallow embedding of [network/network.go].  Connections are explicit
    values (what the peer will deliver, what has been written so far), the
    server is a record that is passed from call to call, and the two sources
    of non-determinism of the Go program, the network and the iteration
    order of maps, are oracles that are quantified over in the theorems. *)

From Stdlib Require Import ZArith List Ascii String Strings.Byte Lia.
From stdpp Require Import base option list gmap sets strings countable.

Open Scope Z_scope.

(** ** Bytes *)

Abbreviation byte := Byte.byte.

Definition Z_of_byte (b : byte) : Z := Z.of_N (Byte.to_N b).

Definition byte_of_Z (z : Z) : byte :=
  match Byte.of_N (Z.to_N (z mod 256)) with
  | Some b => b
  | None => x00
  end.

#[global] Instance byte_eq_dec : EqDecision byte := Byte.byte_eq_dec.

#[global] Program Instance byte_countable : Countable byte :=
  inj_countable Byte.to_N Byte.of_N _.
Next Obligation. intros b. apply Byte.of_to_N. Qed.

(** ** Errors and outcomes *)

(** Go [error] values.  [errors_New] is [errors.New]; [io_EOF] is the
    sentinel of package io; the two others stand for the errors of package
    net and of the encoding package. *)
Inductive error : Type :=
| io_EOF
| errors_New (msg : string)
| net_Error (msg : string)
| encoding_Error (msg : string).

#[global] Instance error_eq_dec : EqDecision error.
Proof. solve_decision. Defined.

(** What a call does: it returns, it waits for ever on a silent connection,
    it panics, or the model ran out of [fuel] before the call was over. *)
Inductive Outcome (A : Type) : Type :=
| Ret (a : A)
| Blocked
| Panic (msg : string)
| OutOfFuel.

Arguments Ret {A} a.
Arguments Blocked {A}.
Arguments Panic {A} msg.
Arguments OutOfFuel {A}.

#[global] Instance Outcome_ret : MRet Outcome := @Ret.
#[global] Instance Outcome_bind : MBind Outcome := λ A B f m,
  match m with
  | Ret a => f a
  | Blocked => Blocked
  | Panic msg => Panic msg
  | OutOfFuel => OutOfFuel
  end.

Definition returns {A} (m : Outcome A) : Prop := ∃ a, m = Ret a.

(** ** Package encoding: fixed-width integers *)

(** binary.LittleEndian.PutUint64 restricted to [n] bytes *)
Fixpoint le_bytes (n : nat) (z : Z) : list byte :=
  match n with
  | O => []
  | S k => byte_of_Z z :: le_bytes k (z / 256)
  end.

Fixpoint le_value (b : list byte) : Z :=
  match b with
  | [] => 0
  | x :: r => Z_of_byte x + 256 * le_value r
  end.

(** Modelled from the spec: [encoding.EncUint64] is not part of the file;
    the length is a fixed-width unsigned integer in a fixed byte order.  The
    order is little-endian: the peer-share request literal
    ['P', 1, 0, 0, 0, 10] carries the length 1 as [1, 0, 0, 0]. *)
Definition EncUint64 (i : Z) : list byte := le_bytes 8 (i mod 2 ^ 64).

(** Modelled from the spec: [encoding.DecUint64] is not part of the file.
    It copies its argument into a zeroed array of 8 bytes and reads that as
    a little-endian integer. *)
Definition DecUint64 (b : list byte) : Z :=
  le_value (firstn 8 (b ++ repeat x00 8)).

(** ** Connections *)

(** How the incoming half of a connection ends once every chunk has been
    delivered: the peer closes it and reads return [io.EOF]; the transport
    fails and reads return an error of package net, with a message; or
    nothing happens any more (no deadline is ever set, so a read waits for
    ever). *)
Inductive Ending : Type :=
| Closed
| Failed (msg : string)
| Silent.

(** A [net.Conn].  [incoming] is what the peer sends, in the chunks in which
    it arrives; [outgoing] collects the arguments of the successful calls of
    [Write]; [wfail] makes every [Write] fail. *)
Record Conn : Type := mkConn {
  incoming : list (list byte);
  ending : Ending;
  outgoing : list (list byte);
  wfail : option error;
  remote : string
}.

Definition set_incoming (l : list (list byte)) (c : Conn) : Conn :=
  mkConn l (ending c) (outgoing c) (wfail c) (remote c).

Definition set_outgoing (l : list (list byte)) (c : Conn) : Conn :=
  mkConn (incoming c) (ending c) l (wfail c) (remote c).

(** [conn.Read(buf)] with [len(buf) = n]: at most [n] bytes of the chunk
    at the head. *)
Definition Read (n : nat) (c : Conn) : Outcome (list byte * option error * Conn) :=
  match incoming c with
  | [] =>
      match ending c with
      | Closed => Ret ([], Some io_EOF, c)
      | Failed msg => Ret ([], Some (net_Error msg), c)
      | Silent => Blocked
      end
  | chunk :: rest =>
      let rest' := match skipn n chunk with [] => rest | l => l :: rest end in
      Ret (firstn n chunk, None, set_incoming rest' c)
  end.

(** [conn.Write(msg)] *)
Definition Write (msg : list byte) (c : Conn) : Z * option error * Conn :=
  match wfail c with
  | Some e => (0, Some e, c)
  | None => (Z.of_nat (length msg), None, set_outgoing (outgoing c ++ [msg]) c)
  end.

(** [data.ReadFrom(conn)] of bytes.Buffer: appends to [data] everything the
    connection delivers until it ends.  The end of the stream is not an
    error here: [io.EOF] is turned into [nil]. *)
Definition ReadFrom (data : list byte) (c : Conn)
  : Outcome (Z * option error * list byte * Conn) :=
  let got := concat (incoming c) in
  let c' := set_incoming [] c in
  match ending c with
  | Closed => Ret (Z.of_nat (length got), None, data ++ got, c')
  | Failed msg => Ret (Z.of_nat (length got), Some (net_Error msg), data ++ got, c')
  | Silent => Blocked
  end.

(** ** Framing *)

Definition maxMsgLen : Z := Z.shiftl 1 16.

(** The loop [for total := 0; total < msgLen; { ... }] of [ReadPrefix]. *)
Fixpoint ReadPrefix_loop (fuel : nat) (msgLen : Z) (data : list byte) (total : Z)
    (conn : Conn) : Outcome (option error * list byte * Conn) :=
  if total <? msgLen then
    match fuel with
    | O => OutOfFuel
    | S fuel' =>
        '(n, err, data', conn') ← ReadFrom data conn;
        match err with
        | Some e => Ret (Some e, data', conn')
        | None => ReadPrefix_loop fuel' msgLen data' (total + n) conn'
        end
    end
  else Ret (None, data, conn).

Definition ReadPrefix (fuel : nat) (conn : Conn)
  : Outcome (list byte * option error * Conn) :=
  '(prefix, err, conn) ← Read 4 conn;
  if decide (err ≠ None ∨ length prefix ≠ 4%nat) then
    Ret ([], Some (errors_New "could not read length prefix"), conn)
  else
    let msgLen := DecUint64 prefix in
    if msgLen >? maxMsgLen then
      Ret ([], Some (errors_New "message too long"), conn)
    else
      '(err, data, conn) ← ReadPrefix_loop fuel msgLen [] 0 conn;
      match err with
      | Some e => Ret ([], Some e, conn)
      | None =>
          if decide (Z.of_nat (length data) ≠ msgLen) then
            Ret ([], Some (errors_New "message length mismatch"), conn)
          else Ret (data, None, conn)
      end.

Definition WritePrefix (conn : Conn) (data : list byte) : Z * option error * Conn :=
  let encLen := EncUint64 (Z.of_nat (length data)) in
  Write (firstn 4 encLen ++ data) conn.

(** ** Peer addresses *)

(** [Port] is a [uint16]; nothing in this file computes with it. *)
Record NetAddress : Type := mkNetAddress {
  Host : string;
  Port : Z
}.

#[global] Instance NetAddress_eq_dec : EqDecision NetAddress.
Proof. solve_decision. Defined.

#[global] Program Instance NetAddress_countable : Countable NetAddress :=
  inj_countable' (λ a, (Host a, Port a)) (λ p, mkNetAddress p.1 p.2) _.
Next Obligation. by intros []. Qed.

(** The zero value of the struct. *)
Definition zero_NetAddress : NetAddress := mkNetAddress "" 0.

(** ** Package reflect, as far as [RegisterRPC] uses it *)

#[warnings="-register-all"]
Inductive GoType : Type :=
| T_bool
| T_int
| T_uint16
| T_string
| T_bytes
| T_error
| T_NetAddress
| T_slice (elem : GoType)
| T_func (ins outs : list GoType).

Inductive Kind : Type :=
| k_Bool | k_Int | k_Uint16 | k_String | k_Slice | k_Interface | k_Struct | k_Func.

#[global] Instance Kind_eq_dec : EqDecision Kind.
Proof. solve_decision. Defined.

(** is [typ] the interface type [error]? *)
Definition is_errorType (typ : GoType) : bool :=
  match typ with
  | T_error => true
  | _ => false
  end.

Definition kind_of (typ : GoType) : Kind :=
  match typ with
  | T_bool => k_Bool
  | T_int => k_Int
  | T_uint16 => k_Uint16
  | T_string => k_String
  | T_bytes | T_slice _ => k_Slice
  | T_error => k_Interface
  | T_NetAddress => k_Struct
  | T_func _ _ => k_Func
  end.

(** [typ.NumIn()], [typ.NumOut()], [typ.In(i)], [typ.Out(i)] panic when the
    type is not a function type or the index is out of range. *)
Definition NumIn (typ : GoType) : Outcome nat :=
  match typ with
  | T_func ins _ => Ret (length ins)
  | _ => Panic "reflect: NumIn of non-func type"
  end.

Definition NumOut (typ : GoType) : Outcome nat :=
  match typ with
  | T_func _ outs => Ret (length outs)
  | _ => Panic "reflect: NumOut of non-func type"
  end.

Definition In_ (typ : GoType) (i : nat) : Outcome GoType :=
  match typ with
  | T_func ins _ =>
      match ins !! i with
      | Some t => Ret t
      | None => Panic "reflect: Func index out of bounds"
      end
  | _ => Panic "reflect: In of non-func type"
  end.

Definition Out (typ : GoType) (i : nat) : Outcome GoType :=
  match typ with
  | T_func _ outs =>
      match outs !! i with
      | Some t => Ret t
      | None => Panic "reflect: Func index out of bounds"
      end
  | _ => Panic "reflect: Out of non-func type"
  end.

(** Decoded values, and the values a function returns. *)
Inductive GoVal : Type :=
| Gv_bool (b : bool)
| Gv_int (z : Z)
| Gv_string (s : string)
| Gv_bytes (l : list byte)
| Gv_addr (a : NetAddress)
| Gv_addrs (l : list NetAddress)
| Gv_error (e : option error).

(** What [reflect.ValueOf(fn)] holds: a function with its code, a nil
    function, or something that is no function. *)
Inductive reflect_Value : Type :=
| v_func (code : list GoVal → list GoVal)
| v_nilfunc
| v_data (v : GoVal).

(** An [interface{}] argument: [None] is the nil interface, otherwise a
    dynamic type with a value. *)
Definition interface : Type := option (GoType * reflect_Value).

(** [a || b], which does not evaluate [b] when [a] holds *)
Definition orelse (a b : Outcome bool) : Outcome bool :=
  x ← a; if x : bool then Ret true else b.

Infix "|||" := orelse (at level 50, left associativity).

(** ** The encoding package: values *)

(** [encoding.Marshal] and [encoding.Unmarshal] at the types at which this
    file uses them; [Unmarshal_val typ] decodes into a new value of [typ]. *)
Record Codec : Type := mkCodec {
  Marshal_addr : NetAddress → list byte;
  Marshal_addrs : list NetAddress → list byte;
  Unmarshal_addr : list byte → error + NetAddress;
  Unmarshal_addrs : list byte → error + list NetAddress;
  Unmarshal_val : GoType → list byte → error + GoVal
}.

(** ** The server *)

(** The values of [handlerMap].  The three default handlers, the closure
    [sfn] that [RegisterRPC] builds around [typ] and [val], and handlers
    given by the application. *)
Inductive Handler : Type :=
| h_sendHostname
| h_sharePeers
| h_addPeer
| h_sfn (typ : GoType) (val : reflect_Value)
| h_fn (fn : Conn → list byte → option error * Conn).

Record TCPServer : Type := mkTCPServer {
  myAddr : NetAddress;
  addressbook : gset NetAddress;
  handlerMap : gmap byte Handler
}.

Definition set_myAddr_Host (host : string) (tcps : TCPServer) : TCPServer :=
  mkTCPServer (mkNetAddress host (Port (myAddr tcps))) (addressbook tcps) (handlerMap tcps).

(** [tcps.addressbook[addr] = struct{}{}] *)
Definition addressbook_add (addr : NetAddress) (tcps : TCPServer) : TCPServer :=
  mkTCPServer (myAddr tcps) ({[addr]} ∪ addressbook tcps) (handlerMap tcps).

(** What changes outside the server: [clock] counts the calls of
    [net.DialTimeout], [invoked] lists the arguments of the calls of
    functions registered through [RegisterRPC]. *)
Record World : Type := mkWorld {
  clock : nat;
  invoked : list (list GoVal)
}.

Definition tick (w : World) : World := mkWorld (S (clock w)) (invoked w).

Definition log_call (args : list GoVal) (w : World) : World :=
  mkWorld (clock w) (invoked w ++ [args]).

(** [NewTCPServer(port)], when [net.Listen] succeeds. *)
Definition NewTCPServer (port : Z) : TCPServer :=
  mkTCPServer (mkNetAddress "" port) ∅
    (<[x48 := h_sendHostname]> (<[x50 := h_sharePeers]> (<[x41 := h_addPeer]> ∅))).

(** [RegisterHandler]: the existing handler for [t] is overwritten. *)
Definition RegisterHandler (t : byte) (fn : Handler) (tcps : TCPServer) : TCPServer :=
  mkTCPServer (myAddr tcps) (addressbook tcps) (<[t := fn]> (handlerMap tcps)).

(** [RegisterRPC].  [reflect.TypeOf(nil)] is the nil [Type], whose method
    [Kind] cannot be called. *)
Definition RegisterRPC (t : byte) (fn : interface) (tcps : TCPServer)
  : Outcome (option error * TCPServer) :=
  match fn with
  | None => Panic "invalid memory address or nil pointer dereference"
  | Some (typ, val) =>
      wrong ← Ret (bool_decide (kind_of typ ≠ k_Func))
              ||| (n ← NumIn typ; Ret (bool_decide (n ≠ 1%nat)))
              ||| (n ← NumOut typ; Ret (bool_decide (n ≠ 1%nat)))
              ||| (o ← Out typ 0; Ret (negb (is_errorType o)));
      if wrong : bool then
        Ret (Some (errors_New "registered function has wrong type signature"), tcps)
      else
        Ret (None, RegisterHandler t (h_sfn typ val) tcps)
  end.

(** [val.Call(args)] *)
Definition Call_value (val : reflect_Value) (args : list GoVal) (w : World)
  : Outcome (list GoVal * World) :=
  match val with
  | v_func code => Ret (code args, log_call args w)
  | v_nilfunc => Panic "reflect: call of nil function"
  | v_data _ => Panic "reflect: call of non-function"
  end.

Section Network.

(** The encoding package. *)
Variable codec : Codec.

(** The outcome of the [k]-th call of [net.DialTimeout], by the address
    that is dialled: an error, or a connection with what the peer will
    send on it. *)
Variable dial : nat → NetAddress → error + Conn.

(** One step of [for addr := range book]: the key that the runtime
    produces next, or [None] when the loop is over.  [k] is the clock, so
    that two loops need not agree; [start] is the map when the loop
    began, [seen] the keys produced so far, [cur] the map now. *)
Variable pick : nat → gset NetAddress → list NetAddress → gset NetAddress
                → option NetAddress.

(** [net.SplitHostPort] *)
Variable SplitHostPort : string → error + (string * string).

(** The package variable [BootstrapPeers]. *)
Variable BootstrapPeers : list NetAddress.

(** What the language promises about [pick]: a key is produced at most
    once and is in the map when it is produced; the loop does not stop
    before every key that was there from the start has been produced. *)
Definition range_sound : Prop :=
  ∀ k start seen cur a, pick k start seen cur = Some a → a ∈ cur ∧ a ∉ seen.

Definition range_complete : Prop :=
  ∀ k start seen cur,
    start ⊆ cur → pick k start seen cur = None → ∀ a, a ∈ start → a ∈ seen.

(** The closure [sfn] of [RegisterRPC] *)
Definition sfn (typ : GoType) (val : reflect_Value) (conn : Conn) (b : list byte)
    (w : World) : Outcome (option error * World) :=
  in0 ← In_ typ 0;
  match Unmarshal_val codec in0 b with
  | inl err => Ret (Some err, w)
  | inr v =>
      '(out, w) ← Call_value val [v] w;
      match out with
      | [] => Panic "index out of range"
      | Gv_error None :: _ => Ret (None, w)
      | Gv_error (Some err) :: _ => Ret (Some err, w)
      | _ :: _ => Panic "interface conversion: not an error"
      end
  end.

Definition RandomPeer (tcps : TCPServer) (w : World) : NetAddress :=
  match pick (clock w) (addressbook tcps) [] (addressbook tcps) with
  | Some addr => addr
  | None => zero_NetAddress
  end.

Definition sendHostname (conn : Conn) (_ : list byte) : option error * Conn :=
  let '(_, err, conn) := WritePrefix conn (list_byte_of_string (remote conn)) in
  (err, conn).

(** The loop of [sharePeers]; [num] is a byte, and is never decremented
    at 0. *)
Fixpoint sharePeers_loop (k : nat) (book : gset NetAddress) (num : nat)
    (seen addrs : list NetAddress) : list NetAddress :=
  match pick k book seen book with
  | None => addrs
  | Some addr =>
      match num with
      | O => addrs
      | S num' => sharePeers_loop k book num' (seen ++ [addr]) (addrs ++ [addr])
      end
  end.

Definition sharePeers (conn : Conn) (msgData : list byte) (tcps : TCPServer)
    (w : World) : option error * Conn :=
  match msgData with
  | [num] =>
      let addrs := sharePeers_loop (clock w) (addressbook tcps) (Byte.to_nat num) [] [] in
      let '(_, err, conn) := WritePrefix conn (Marshal_addrs codec addrs) in
      (err, conn)
  | _ => (Some (errors_New "invalid number of peers"), conn)
  end.

Definition addPeer (_ : Conn) (data : list byte) (tcps : TCPServer)
  : option error * TCPServer :=
  match Unmarshal_addr codec data with
  | inl err => (Some err, tcps)
  | inr addr => (None, addressbook_add addr tcps)
  end.

Definition Ping (addr : NetAddress) (w : World) : bool * World :=
  match dial (clock w) addr with
  | inl _ => (false, tick w)
  | inr _ => (true, tick w)
  end.

(** [na.Call(fn)] *)
Definition Call (na : NetAddress)
    (fn : Conn → TCPServer → World → Outcome (option error * Conn * TCPServer * World))
    (tcps : TCPServer) (w : World) : Outcome (option error * TCPServer * World) :=
  match dial (clock w) na with
  | inl err => Ret (Some err, tcps, tick w)
  | inr conn =>
      '(err, _, tcps, w) ← fn conn tcps (tick w);
      Ret (err, tcps, w)
  end.

(** [SendVal(t, val)] at the one type at which the file calls it. *)
Definition SendVal (t : byte) (val : NetAddress)
  : Conn → TCPServer → World → Outcome (option error * Conn * TCPServer * World) :=
  let encVal := Marshal_addr codec val in
  let encLen := EncUint64 (Z.of_nat (length encVal)) in
  let msg := t :: (firstn 4 encLen ++ encVal) in
  λ conn tcps w,
    let '(_, err, conn) := Write msg conn in
    Ret (err, conn, tcps, w).

Definition learnHostname (fuel : nat) (conn : Conn) (tcps : TCPServer) (w : World)
  : Outcome (option error * Conn * TCPServer * World) :=
  let '(_, err, conn) := Write [x48; x00; x00; x00; x00] conn in
  match err with
  | Some e => Ret (Some e, conn, tcps, w)
  | None =>
      '(data, err, conn) ← ReadPrefix fuel conn;
      match err with
      | Some e => Ret (Some e, conn, tcps, w)
      | None =>
          match SplitHostPort (string_of_list_byte data) with
          | inl e => Ret (Some e, conn, tcps, w)
          | inr (host, _) => Ret (None, conn, set_myAddr_Host host tcps, w)
          end
      end
  end.

(** The loop [for _, addr := range addrs] of [requestPeers] *)
Fixpoint requestPeers_add (addrs : list NetAddress) (tcps : TCPServer) (w : World)
  : TCPServer * World :=
  match addrs with
  | [] => (tcps, w)
  | addr :: rest =>
      if decide (addr ≠ myAddr tcps) then
        let '(ok, w) := Ping addr w in
        if ok then requestPeers_add rest (addressbook_add addr tcps) w
        else requestPeers_add rest tcps w
      else requestPeers_add rest tcps w
  end.

Definition requestPeers (fuel : nat) (conn : Conn) (tcps : TCPServer) (w : World)
  : Outcome (option error * Conn * TCPServer * World) :=
  let '(_, err, conn) := Write [x50; x01; x00; x00; x00; x0a] conn in
  match err with
  | Some e => Ret (Some e, conn, tcps, w)
  | None =>
      '(data, err, conn) ← ReadPrefix fuel conn;
      match err with
      | Some e => Ret (Some e, conn, tcps, w)
      | None =>
          match Unmarshal_addrs codec data with
          | inl e => Ret (Some e, conn, tcps, w)
          | inr addrs =>
              let '(tcps, w) := requestPeers_add addrs tcps w in
              Ret (None, conn, tcps, w)
          end
      end
  end.

(** [Broadcast(fn)]: the loop over the address book, which [fn] may
    extend while the loop runs. *)
Fixpoint Broadcast_loop (fuel : nat)
    (fn : Conn → TCPServer → World → Outcome (option error * Conn * TCPServer * World))
    (start : gset NetAddress) (seen : list NetAddress)
    (tcps : TCPServer) (w : World) : Outcome (TCPServer * World) :=
  match pick (clock w) start seen (addressbook tcps) with
  | None => Ret (tcps, w)
  | Some addr =>
      match fuel with
      | O => OutOfFuel
      | S fuel' =>
          '(_, tcps, w) ← Call addr fn tcps w;
          Broadcast_loop fuel' fn start (seen ++ [addr]) tcps w
      end
  end.

Definition Broadcast (fuel : nat)
    (fn : Conn → TCPServer → World → Outcome (option error * Conn * TCPServer * World))
    (tcps : TCPServer) (w : World) : Outcome (TCPServer * World) :=
  Broadcast_loop fuel fn (addressbook tcps) [] tcps w.

(** The first loop of [Bootstrap]: the peers of the list that answer. *)
Fixpoint Bootstrap_seed (peers : list NetAddress) (tcps : TCPServer) (w : World)
  : TCPServer * World :=
  match peers with
  | [] => (tcps, w)
  | addr :: rest =>
      let '(ok, w) := Ping addr w in
      if ok then Bootstrap_seed rest (addressbook_add addr tcps) w
      else Bootstrap_seed rest tcps w
  end.

(** The second loop of [Bootstrap]: ask until one peer has answered. *)
Fixpoint Bootstrap_learn (fuel : nat) (start : gset NetAddress) (seen : list NetAddress)
    (tcps : TCPServer) (w : World) : Outcome (TCPServer * World) :=
  match pick (clock w) start seen (addressbook tcps) with
  | None => Ret (tcps, w)
  | Some addr =>
      match fuel with
      | O => OutOfFuel
      | S fuel' =>
          '(err, tcps, w) ← Call addr (learnHostname fuel') tcps w;
          match err with
          | None => Ret (tcps, w)
          | Some _ => Bootstrap_learn fuel' start (seen ++ [addr]) tcps w
          end
      end
  end.

Definition Bootstrap (fuel : nat) (tcps : TCPServer) (w : World)
  : Outcome (option error * TCPServer * World) :=
  let '(tcps, w) := Bootstrap_seed BootstrapPeers tcps w in
  '(tcps, w) ← Bootstrap_learn fuel (addressbook tcps) [] tcps w;
  '(tcps, w) ← Broadcast fuel (requestPeers fuel) tcps w;
  '(tcps, w) ← Broadcast fuel (SendVal x41 (myAddr tcps)) tcps w;
  Ret (None, tcps, w).

(** Calling a value of [handlerMap]. *)
Definition call_handler (fn : Handler) (conn : Conn) (b : list byte)
    (tcps : TCPServer) (w : World) : Outcome (option error * Conn * TCPServer * World) :=
  match fn with
  | h_sendHostname =>
      let '(err, conn) := sendHostname conn b in Ret (err, conn, tcps, w)
  | h_sharePeers =>
      let '(err, conn) := sharePeers conn b tcps w in Ret (err, conn, tcps, w)
  | h_addPeer =>
      let '(err, tcps) := addPeer conn b tcps in Ret (err, conn, tcps, w)
  | h_sfn typ val =>
      '(err, w) ← sfn typ val conn b w; Ret (err, conn, tcps, w)
  | h_fn fn =>
      let '(err, conn) := fn conn b in Ret (err, conn, tcps, w)
  end.

(** [handleConn]: one message type, one framed message, one handler. *)
Definition handleConn (fuel : nat) (conn : Conn) (tcps : TCPServer) (w : World)
  : Outcome (Conn * TCPServer * World) :=
  '(msgType, err, conn) ← Read 1 conn;
  match err, msgType with
  | None, [t] =>
      '(msgData, err, conn) ← ReadPrefix fuel conn;
      match err with
      | Some _ => Ret (conn, tcps, w)
      | None =>
          match handlerMap tcps !! t with
          | Some fn =>
              '(_, conn, tcps, w) ← call_handler fn conn msgData tcps w;
              Ret (conn, tcps, w)
          | None => Ret (conn, tcps, w)
          end
      end
  | _, _ => Ret (conn, tcps, w)
  end.

End Network.

(** ** Concrete connections *)

(** A connection on which the peer sends [chunks] and then ends as [e]. *)
Definition conn_of (chunks : list (list byte)) (e : Ending) : Conn :=
  mkConn chunks e [] None "".

(** The other end of [c] once the writer has closed it: what was written,
    write by write, and then the end of the stream. *)
Definition loopback (c : Conn) : Conn := conn_of (outgoing c) Closed.

(** ** A codec, a map iteration order and a host-port splitter

    The theorems are stated for every codec, every network, every iteration
    order.  To run the code on concrete inputs one of each is needed. *)

(** Modelled from the spec: the encoding package is not in the file, and the
    spec fixes only its contract ([unmarshal(marshal(v)) = v]).  [refCodec]
    is one codec with that contract, in the manner of the fixed-width
    integers above: integers and lengths are 8 little-endian bytes, a
    string is its length and its bytes, a slice its length and its
    elements. *)
Definition enc_string (s : string) : list byte :=
  let b := list_byte_of_string s in EncUint64 (Z.of_nat (length b)) ++ b.

Definition enc_addr (a : NetAddress) : list byte :=
  enc_string (Host a) ++ EncUint64 (Port a).

Definition enc_addrs (l : list NetAddress) : list byte :=
  EncUint64 (Z.of_nat (length l)) ++ concat (map enc_addr l).

Definition dec_uint64 (b : list byte) : option (Z * list byte) :=
  if decide (8 ≤ length b)%nat then Some (DecUint64 (take 8 b), drop 8 b) else None.

Definition dec_string (b : list byte) : option (string * list byte) :=
  '(n, b) ← dec_uint64 b;
  if decide (Z.to_nat n ≤ length b)%nat
  then Some (string_of_list_byte (take (Z.to_nat n) b), drop (Z.to_nat n) b)
  else None.

Definition dec_addr (b : list byte) : option (NetAddress * list byte) :=
  '(h, b) ← dec_string b;
  '(p, b) ← dec_uint64 b;
  Some (mkNetAddress h (p mod 2 ^ 16), b).

Fixpoint dec_addrs (n : nat) (b : list byte) : option (list NetAddress * list byte) :=
  match n with
  | O => Some ([], b)
  | S n =>
      '(a, b) ← dec_addr b;
      '(l, b) ← dec_addrs n b;
      Some (a :: l, b)
  end.

Definition decoded {A B} (f : A → B) (r : option (A * list byte)) : error + B :=
  match r with
  | Some (a, _) => inr (f a)
  | None => inl (encoding_Error "could not decode")
  end.

Definition refCodec : Codec := {|
  Marshal_addr := enc_addr;
  Marshal_addrs := enc_addrs;
  Unmarshal_addr b := decoded id (dec_addr b);
  Unmarshal_addrs b :=
    decoded id ('(n, b) ← dec_uint64 b; dec_addrs (Z.to_nat n) b);
  Unmarshal_val typ b :=
    match typ with
    | T_int | T_uint16 => decoded (Gv_int ∘ fst) ('(n, b) ← dec_uint64 b; Some (n, b, b))
    | T_string => decoded Gv_string (dec_string b)
    | T_NetAddress => decoded Gv_addr (dec_addr b)
    | T_slice T_NetAddress =>
        decoded Gv_addrs ('(n, b) ← dec_uint64 b; dec_addrs (Z.to_nat n) b)
    | _ => inl (encoding_Error "could not decode")
    end
|}.

(** An iteration order: the keys in the order of [elements]. *)
Definition pick_first (k : nat) (start : gset NetAddress) (seen : list NetAddress)
    (cur : gset NetAddress) : option NetAddress :=
  head (filter (λ a, a ∉ seen) (elements cur)).

(** A splitter at the last colon, enough for [host:port] without brackets. *)
Fixpoint split_last_colon (s : string) : option (string * string) :=
  match s with
  | EmptyString => None
  | String c r =>
      match split_last_colon r with
      | Some (h, p) => Some (String c h, p)
      | None => if Ascii.eqb c ":"%char then Some (EmptyString, r) else None
      end
  end.

Definition split_host_port (s : string) : error + (string * string) :=
  match split_last_colon s with
  | Some hp => inr hp
  | None => inl (net_Error "missing port in address")
  end.

(** The peers of the bootstrap scenario of the specification. *)
Definition P1 : NetAddress := mkNetAddress "198.51.100.1" 4001.
Definition P2 : NetAddress := mkNetAddress "198.51.100.2" 4001.
Definition P3 : NetAddress := mkNetAddress "198.51.100.3" 4001.

Definition w0 : World := mkWorld 0 [].

(** A frame as [WritePrefix] writes it. *)
Definition frame (data : list byte) : list byte :=
  firstn 4 (EncUint64 (Z.of_nat (length data))) ++ data.

(** ** Notions used in the statements *)

(** The signature that [RegisterRPC] asks for: [func(T) error]. *)
Definition signature_ok (typ : GoType) : bool :=
  match typ with
  | T_func [_] [T_error] => true
  | _ => false
  end.

(** Does the [k]-th dial reach [a]?  This is what [Ping] returns then. *)
Definition is_reachable (dial : nat → NetAddress → error + Conn) (k : nat)
    (a : NetAddress) : bool :=
  match dial k a with
  | inr _ => true
  | inl _ => false
  end.

(** The probes of the loop of [requestPeers] on the reply [addrs], started
    at clock [k]: one for each address that is not [me], in order, each at
    its own tick. *)
Fixpoint probes (me : NetAddress) (addrs : list NetAddress) (k : nat)
  : list (nat * NetAddress) :=
  match addrs with
  | [] => []
  | addr :: rest =>
      if decide (addr ≠ me) then (k, addr) :: probes me rest (S k)
      else probes me rest k
  end.

(** The peer-share request that [requestPeers] sends: 10 peers. *)
Definition peers_request : list byte := [x50; x01; x00; x00; x00; x0a].

(** ** The bootstrap scenario of the specification

    [P1] answers the hostname request (the dial at clock 1) with
    [203.0.113.5:4001] and every other request with the peers [P2] and [P3];
    [P2] knows no peers; [P3] cannot be reached. *)
Definition scenario_dial (k : nat) (a : NetAddress) : error + Conn :=
  if decide (a = P1) then
    if decide (k = 1%nat)
    then inr (conn_of [frame (list_byte_of_string "203.0.113.5:4001")] Closed)
    else inr (conn_of [frame (enc_addrs [P2; P3])] Closed)
  else if decide (a = P2) then inr (conn_of [frame (enc_addrs [])] Closed)
  else inl (net_Error "dial tcp: i/o timeout").

(** A server that knows three peers. *)
Definition book3 : TCPServer :=
  addressbook_add P1 (addressbook_add P2 (addressbook_add P3 (NewTCPServer 9988))).

(** The address of that server before it has learnt its host name. *)
Definition me : NetAddress := myAddr (NewTCPServer 9988).

(** A peer that accepts the connection and then neither sends nor closes. *)
Definition silent_dial (k : nat) (a : NetAddress) : error + Conn :=
  inr (conn_of [] Silent).

(** Two connections on which the same bytes arrive and end the same way. *)
Definition same_input (c c' : Conn) : Prop :=
  incoming c = incoming c' ∧ ending c = ending c'.

(** [fn], run on a connection that [dial] hands out, returns and leaves the
    address book inside [B]. *)
Definition keeps_below (dial : nat → NetAddress → error + Conn) (B : gset NetAddress)
    (fn : Conn → TCPServer → World → Outcome (option error * Conn * TCPServer * World))
  : Prop :=
  ∀ k a c tcps w, dial k a = inr c → addressbook tcps ⊆ B →
    ∃ err c' tcps' w', fn c tcps w = Ret (err, c', tcps', w')
                       ∧ addressbook tcps' ⊆ B.

(** ** [AddressBook] *)

(** The loop of [AddressBook]: every key is appended. *)
Fixpoint AddressBook_loop
    (pick : nat → gset NetAddress → list NetAddress → gset NetAddress → option NetAddress)
    (fuel k : nat) (src : gset NetAddress) (seen book : list NetAddress)
  : Outcome (list NetAddress) :=
  match pick k src seen src with
  | None => Ret book
  | Some address =>
      match fuel with
      | O => OutOfFuel
      | S fuel' => AddressBook_loop pick fuel' k src (seen ++ [address]) (book ++ [address])
      end
  end.

Definition AddressBook
    (pick : nat → gset NetAddress → list NetAddress → gset NetAddress → option NetAddress)
    (fuel : nat) (tcps : TCPServer) (w : World) : Outcome (list NetAddress) :=
  AddressBook_loop pick fuel (clock w) (addressbook tcps) [] [].

(** ** More notions used in the statements *)

(** What is still to come on [c]: the bytes, whatever the chunks. *)
Definition pending (c : Conn) : list byte := concat (incoming c).

(** An echo handler, for the examples. *)
Definition echo : Handler :=
  h_fn (λ conn b, let '(_, err, conn) := WritePrefix conn b in (err, conn)).

(** The peer-announce handler, called on each message of a list in turn. *)
Definition announce_all (codec : Codec) (msgs : list (list byte)) (tcps : TCPServer)
  : TCPServer :=
  fold_left (λ s data, (addPeer codec (conn_of [] Closed) data s).2) msgs tcps.

(** [n] ticks of the clock *)
Definition ticks (n : nat) (w : World) : World := mkWorld (n + clock w) (invoked w).

(** From [s] to [s']: the port and the handlers are kept, no peer is lost,
    and a new peer has answered a dial. *)
Definition grows (dial : nat → NetAddress → error + Conn) (s s' : TCPServer) : Prop :=
  Port (myAddr s') = Port (myAddr s)
  ∧ handlerMap s' = handlerMap s
  ∧ addressbook s ⊆ addressbook s'
  ∧ ∀ a, a ∈ addressbook s' → a ∈ addressbook s ∨ ∃ k, is_reachable dial k a = true.

(** [na.Call(fn)] for each address of a list, in order, the results of [fn]
    being dropped as [Broadcast] drops them. *)
Fixpoint call_each (dial : nat → NetAddress → error + Conn)
    (fn : Conn → TCPServer → World → Outcome (option error * Conn * TCPServer * World))
    (order : list NetAddress) (tcps : TCPServer) (w : World)
  : Outcome (TCPServer * World) :=
  match order with
  | [] => Ret (tcps, w)
  | addr :: rest =>
      '(_, tcps, w) ← Call dial addr fn tcps w;
      call_each dial fn rest tcps w
  end.

(** [fn] always returns and leaves the address book as it is. *)
Definition keeps_book
    (fn : Conn → TCPServer → World → Outcome (option error * Conn * TCPServer * World))
  : Prop :=
  ∀ c s w, ∃ e c' s' w', fn c s w = Ret (e, c', s', w') ∧ addressbook s' = addressbook s.

(** A function that notes on the server who it was connected to. *)
Definition note_remote (conn : Conn) (tcps : TCPServer) (w : World)
  : Outcome (option error * Conn * TCPServer * World) :=
  Ret (None, conn, set_myAddr_Host (remote conn) tcps, w).

(** A network in which every dial succeeds and the connection carries the
    host that was dialled. *)
Definition named_dial (k : nat) (a : NetAddress) : error + Conn :=
  inr (mkConn [] Closed [] None (Host a)).

(** * Framing *)

(** ** Little-endian integers *)


Lemma Z_of_byte_range b : 0 ≤ Z_of_byte b < 256.
Proof.
  unfold Z_of_byte. pose proof (Byte.to_N_bounded b). lia.
Qed.

Lemma Z_of_byte_of_Z z : Z_of_byte (byte_of_Z z) = z mod 256.
Proof.
  unfold Z_of_byte, byte_of_Z.
  pose proof (Z.mod_pos_bound z 256 eq_refl) as Hm.
  destruct (Byte.of_N (Z.to_N (z mod 256))) as [b|] eqn:E.
  - apply Byte.to_of_N in E. rewrite E. lia.
  - apply Byte.of_N_None_iff in E. lia.
Qed.

Lemma length_le_bytes n z : length (le_bytes n z) = n.
Proof. revert z. induction n as [|n IH]; intros z; simpl; auto. Qed.

Lemma le_value_le_bytes n z : le_value (le_bytes n z) = z mod 256 ^ Z.of_nat n.
Proof.
  revert z. induction n as [|n IH]; intros z.
  - simpl. by rewrite Z.mod_1_r.
  - cbn [le_bytes le_value]. rewrite IH, Z_of_byte_of_Z.
    rewrite Nat2Z.inj_succ, Z.pow_succ_r by lia.
    rewrite Z.rem_mul_r by lia. lia.
Qed.

Lemma firstn_le_bytes m n z : (m ≤ n)%nat → firstn m (le_bytes n z) = le_bytes m z.
Proof.
  revert n z. induction m as [|m IH]; intros n z Hle; [done|].
  destruct n as [|n]; [lia|]. cbn. f_equal. apply IH. lia.
Qed.

Lemma le_value_app_zeros l k : le_value (l ++ repeat x00 k) = le_value l.
Proof.
  induction l as [|x l IH]; simpl.
  - induction k as [|k IHk]; simpl; [done|]. rewrite IHk. done.
  - by rewrite IH.
Qed.

Lemma DecUint64_prefix n :
  0 ≤ n < 2 ^ 32 → DecUint64 (firstn 4 (EncUint64 n)) = n.
Proof.
  intros Hn. unfold DecUint64, EncUint64.
  rewrite firstn_le_bytes by lia.
  rewrite firstn_app, length_le_bytes. simpl (8 - 4)%nat.
  rewrite (firstn_all2 (le_bytes 4 _)) by (rewrite length_le_bytes; lia).
  change (firstn 4 (repeat x00 8)) with (repeat x00 4).
  rewrite le_value_app_zeros, le_value_le_bytes.
  rewrite (Z.mod_small n (2 ^ 64)) by lia.
  apply Z.mod_small. change (256 ^ Z.of_nat 4) with (2 ^ 32). lia.
Qed.

(** ** [ReadPrefix] *)


Lemma maxMsgLen_eq : maxMsgLen = 65536.
Proof. reflexivity. Qed.

Lemma ReadPrefix_loop_spin fuel msgLen data total c :
  incoming c = [] → ending c = Closed → total < msgLen →
  ReadPrefix_loop fuel msgLen data total c = OutOfFuel.
Proof.
  revert data c. induction fuel as [|fuel IH]; intros data c Hin Hend Hlt; simpl.
  - by rewrite (proj2 (Z.ltb_lt _ _) Hlt).
  - rewrite (proj2 (Z.ltb_lt _ _) Hlt). unfold ReadFrom. rewrite Hend, Hin. cbn.
    rewrite Z.add_0_r. by apply IH.
Qed.

Lemma ReadPrefix_loop_mono fuel fuel' msgLen data total c r :
  (fuel ≤ fuel')%nat →
  ReadPrefix_loop fuel msgLen data total c = Ret r →
  ReadPrefix_loop fuel' msgLen data total c = Ret r.
Proof.
  revert fuel' data total c. induction fuel as [|fuel IH]; intros fuel' data total c Hle.
  - destruct fuel'; simpl; destruct (total <? msgLen); done.
  - destruct fuel' as [|fuel']; [lia|]. simpl.
    destruct (total <? msgLen); [|done].
    destruct (ReadFrom data c) as [[[[n err] data'] c']| | |]; cbn; try done.
    destruct err; [done|]. apply IH. lia.
Qed.

Lemma ReadPrefix_mono fuel fuel' c r :
  (fuel ≤ fuel')%nat → ReadPrefix fuel c = Ret r → ReadPrefix fuel' c = Ret r.
Proof.
  intros Hle. unfold ReadPrefix.
  destruct (Read 4 c) as [[[prefix err] c1]| | |]; cbn; try done.
  destruct (decide _); [done|].
  destruct (_ >? _); [done|].
  destruct (ReadPrefix_loop fuel _ _ _ _) as [x| | |] eqn:E; cbn; try done.
  by rewrite (ReadPrefix_loop_mono _ _ _ _ _ _ _ Hle E).
Qed.

(** One turn of the loop is all that ever helps. *)
Lemma ReadPrefix_loop_one fuel msgLen data total c r :
  ReadPrefix_loop fuel msgLen data total c = Ret r →
  ReadPrefix_loop 1 msgLen data total c = Ret r.
Proof.
  destruct fuel as [|fuel]; [simpl; destruct (total <? msgLen); done|].
  simpl. destruct (total <? msgLen) eqn:Hlt; [|done].
  unfold ReadFrom. destruct (ending c) eqn:Hend; cbn; try done.
  destruct (total + _ <? msgLen) eqn:Hlt'; [|by destruct fuel; simpl; rewrite Hlt'].
  intros H. exfalso.
  assert (ReadPrefix_loop fuel msgLen (data ++ concat (incoming c))
            (total + Z.of_nat (length (concat (incoming c)))) (set_incoming [] c) = OutOfFuel) as E.
  { apply ReadPrefix_loop_spin; [done|done|]. by apply Z.ltb_lt. }
  congruence.
Qed.

Lemma ReadPrefix_one fuel c r :
  ReadPrefix fuel c = Ret r → ReadPrefix 1 c = Ret r.
Proof.
  unfold ReadPrefix.
  destruct (Read 4 c) as [[[prefix err] c1]| | |]; cbn [mbind Outcome_bind]; try done.
  destruct (decide _); [done|].
  destruct (_ >? _); [done|].
  destruct (ReadPrefix_loop fuel _ _ _ _) as [x| | |] eqn:E;
    cbn [mbind Outcome_bind]; try done.
  by rewrite (ReadPrefix_loop_one _ _ _ _ _ _ E).
Qed.

Lemma ReadPrefix_loop_closed fuel msgLen c :
  ending c = Closed →
  0 < msgLen ≤ Z.of_nat (length (concat (incoming c))) →
  ReadPrefix_loop (S fuel) msgLen [] 0 c
  = Ret (None, concat (incoming c), set_incoming [] c).
Proof.
  intros Hend [Hpos Hle]. cbn [ReadPrefix_loop].
  rewrite (proj2 (Z.ltb_lt _ _) Hpos).
  unfold ReadFrom. rewrite Hend. cbn [mbind Outcome_bind app].
  destruct fuel; cbn [ReadPrefix_loop];
    by rewrite (proj2 (Z.ltb_ge _ _)) by lia.
Qed.

Lemma ReadPrefix_roundtrip fuel data c :
  incoming c = [firstn 4 (EncUint64 (Z.of_nat (length data))) ++ data] →
  ending c = Closed →
  Z.of_nat (length data) ≤ 65536 →
  ReadPrefix (S fuel) c = Ret (data, None, set_incoming [] c).
Proof.
  intros Hin Hend Hlen.
  assert (length (firstn 4 (EncUint64 (Z.of_nat (length data)))) = 4%nat) as H4.
  { unfold EncUint64. rewrite firstn_le_bytes by lia. apply length_le_bytes. }
  unfold ReadPrefix, Read. rewrite Hin. cbn [mbind Outcome_bind].
  rewrite take_app_length', drop_app_length' by (symmetry; exact H4).
  rewrite decide_False by (rewrite H4; intros [?|?]; congruence).
  rewrite DecUint64_prefix by lia.
  rewrite maxMsgLen_eq.
  destruct (Z.gtb_spec (Z.of_nat (length data)) 65536) as [?|_]; [lia|].
  destruct data as [|b data].
  - cbn. done.
  - rewrite ReadPrefix_loop_closed; cbn [set_incoming ending incoming concat];
      rewrite ?app_nil_r; [|done|cbn [length]; lia].
    cbn [mbind Outcome_bind]. by rewrite decide_False by lia.
Qed.


Lemma ReadPrefix_oversize fuel data c :
  incoming c = [firstn 4 (EncUint64 (Z.of_nat (length data))) ++ data] →
  65536 < Z.of_nat (length data) < 2 ^ 32 →
  ReadPrefix fuel c
  = Ret ([], Some (errors_New "message too long"), set_incoming [data] c).
Proof.
  intros Hin Hlen.
  assert (length (firstn 4 (EncUint64 (Z.of_nat (length data)))) = 4%nat) as H4.
  { unfold EncUint64. rewrite firstn_le_bytes by lia. apply length_le_bytes. }
  unfold ReadPrefix, Read. rewrite Hin. cbn [mbind Outcome_bind].
  rewrite take_app_length', drop_app_length' by (symmetry; exact H4).
  rewrite decide_False by (rewrite H4; intros [?|?]; congruence).
  rewrite DecUint64_prefix by lia.
  rewrite maxMsgLen_eq.
  destruct (Z.gtb_spec (Z.of_nat (length data)) 65536) as [_|?]; [|lia].
  destruct data; [simpl in Hlen; lia|done].
Qed.

(** What [ReadPrefix] does on a stream that the peer closes, when the first
    chunk holds the 4 bytes of a length [L] within the bound: with fewer
    than [L] bytes behind the prefix the loop never ends; with more, the
    message is refused; the bytes are returned only when the stream ends
    with the [L]-th. *)
Lemma ReadPrefix_closed_stream fuel c chunk rest :
  incoming c = chunk :: rest → ending c = Closed → (4 ≤ length chunk)%nat →
  let L := DecUint64 (take 4 chunk) in
  let payload := drop 4 chunk ++ concat rest in
  0 < L ≤ 65536 →
  ReadPrefix fuel c
  = if decide (Z.of_nat (length payload) < L) then OutOfFuel
    else match fuel with
         | O => OutOfFuel
         | S _ =>
             if decide (Z.of_nat (length payload) = L)
             then Ret (payload, None, set_incoming [] c)
             else Ret ([], Some (errors_New "message length mismatch"),
                       set_incoming [] c)
         end.
Proof.
  intros Hin Hend Hlen L payload HL.
  unfold ReadPrefix, Read. rewrite Hin. cbn [mbind Outcome_bind].
  rewrite decide_False by (rewrite length_take; intros [?|?]; [congruence|lia]).
  fold L. rewrite maxMsgLen_eq.
  destruct (Z.gtb_spec L 65536) as [?|_]; [lia|].
  set (c1 := set_incoming _ c).
  assert (concat (incoming c1) = payload) as Hpay.
  { unfold c1, payload. cbn. destruct (drop 4 chunk); [done|]. by cbn. }
  assert (ending c1 = Closed) as Hend1 by done.
  assert (set_incoming [] c1 = set_incoming [] c) as Hc1 by done.
  destruct fuel as [|fuel].
  - cbn [ReadPrefix_loop]. rewrite (proj2 (Z.ltb_lt 0 L)) by lia. cbn.
    by destruct (decide _).
  - destruct (decide (Z.of_nat (length payload) < L)) as [Hlt|Hge].
    + cbn [ReadPrefix_loop]. rewrite (proj2 (Z.ltb_lt 0 L)) by lia.
      unfold ReadFrom. rewrite Hend1, Hpay. cbn [mbind Outcome_bind app].
      by rewrite ReadPrefix_loop_spin by (done || lia).
    + rewrite ReadPrefix_loop_closed by (rewrite ?Hpay; done || lia).
      rewrite Hpay, Hc1. cbn [mbind Outcome_bind].
      destruct (decide (Z.of_nat (length payload) = L)).
      * by rewrite decide_False by lia.
      * by rewrite decide_True by lia.
Qed.

(** On a connection that stays open the loop waits for the end of the
    stream, whether or not the [L] bytes have arrived. *)
Lemma ReadPrefix_open_stream fuel c chunk rest :
  incoming c = chunk :: rest → ending c = Silent → (4 ≤ length chunk)%nat →
  0 < DecUint64 (take 4 chunk) ≤ 65536 →
  ReadPrefix (S fuel) c = Blocked.
Proof.
  intros Hin Hend Hlen HL.
  unfold ReadPrefix, Read. rewrite Hin. cbn [mbind Outcome_bind].
  rewrite decide_False by (rewrite length_take; intros [?|?]; [congruence|lia]).
  rewrite maxMsgLen_eq.
  destruct (Z.gtb_spec (DecUint64 (take 4 chunk)) 65536) as [?|_]; [lia|].
  cbn [ReadPrefix_loop]. rewrite (proj2 (Z.ltb_lt 0 _)) by lia.
  unfold ReadFrom. cbn [ending set_incoming]. by rewrite Hend.
Qed.

(** C1, on the code: [ReadPrefix] reads to the end of the stream, not [L]
    bytes.  A stream that ends after 1 of the 2 announced bytes makes the
    loop turn for ever (no fuel is enough) where the claim promises a
    truncation error; a stream that carries a third byte before it ends is
    refused where the claim promises the first 2 bytes; a stream that
    delivers the 2 bytes and stays open never lets [ReadPrefix] return. *)
Theorem ReadPrefix_reads_to_end_of_stream :
  (∀ fuel, ReadPrefix fuel (conn_of [[x02; x00; x00; x00]; [x07]] Closed) = OutOfFuel)
  ∧ (∀ fuel, ReadPrefix (S fuel) (conn_of [[x02; x00; x00; x00]; [x07; x08; x09]] Closed)
             = Ret ([], Some (errors_New "message length mismatch"), conn_of [] Closed))
  ∧ (∀ fuel, ReadPrefix (S fuel) (conn_of [[x02; x00; x00; x00]; [x07; x08]] Silent)
             = Blocked).
Proof.
  split; [|split]; intros fuel.
  - unfold ReadPrefix. cbn [Read conn_of incoming mbind Outcome_bind].
    change (DecUint64 _) with 2. cbn -[ReadPrefix_loop].
    destruct fuel as [|fuel]; [done|].
    cbn [ReadPrefix_loop]. cbn -[ReadPrefix_loop].
    by rewrite ReadPrefix_loop_spin.
  - unfold ReadPrefix. cbn [Read conn_of incoming mbind Outcome_bind].
    change (DecUint64 _) with 2. cbn -[ReadPrefix_loop].
    rewrite ReadPrefix_loop_closed by (cbn; done || lia).
    done.
  - done.
Qed.

(** C4, as stated, fails: [WritePrefix] has no size check.  A payload of
    65537 bytes is written in full, behind the prefix [01 00 01 00], and no
    error is returned. *)
Lemma WritePrefix_writes_oversize :
  let data := repeat x00 (Z.to_nat 65537) in
  ∃ c', WritePrefix (conn_of [] Closed) data = (65541, None, c')
        ∧ outgoing c' = [[x01; x00; x01; x00] ++ data].
Proof.
  intros data. eexists. unfold WritePrefix, Write. cbn [wfail conn_of].
  assert (Z.of_nat (length data) = 65537) as Hlen.
  { unfold data. rewrite repeat_length. by apply Z2Nat.id. }
  rewrite Hlen. change (firstn 4 (EncUint64 65537)) with [x01; x00; x01; x00].
  rewrite length_app, Nat2Z.inj_add, Hlen.
  split; reflexivity.
Qed.

(** C4, amended: on a connection that accepts writes, [WritePrefix] writes
    any payload, in one write and without error: 4 bytes of length, then
    the payload.  [ReadPrefix], on the stream that consists of that write
    followed by the end of the stream, returns the payload unchanged when it
    has at most 65536 bytes (so for the sizes 0, 1 and 65536), and answers
    "message too long" when it has more (so for the size 65537): it is the
    reader that refuses the message. *)
Theorem WritePrefix_ReadPrefix_roundtrip (conn : Conn) (data : list byte) (fuel : nat) :
  wfail conn = None → outgoing conn = [] → Z.of_nat (length data) < 2 ^ 32 →
  let r := WritePrefix conn data in
  r.1.2 = None
  ∧ outgoing r.2 = [firstn 4 (EncUint64 (Z.of_nat (length data))) ++ data]
  ∧ ReadPrefix (S fuel) (loopback r.2)
    = if decide (Z.of_nat (length data) ≤ 65536)
      then Ret (data, None, conn_of [] Closed)
      else Ret ([], Some (errors_New "message too long"), conn_of [data] Closed).
Proof.
  intros Hw Hout Hlt. unfold WritePrefix, Write. rewrite Hw, Hout.
  cbn [fst snd outgoing set_outgoing app].
  split; [done|]. split; [done|]. destruct (decide _) as [Hlen|Hlen].
  - by rewrite (ReadPrefix_roundtrip fuel data).
  - rewrite (ReadPrefix_oversize (S fuel) data); [done|done|lia].
Qed.

Lemma WritePrefix_ReadPrefix_roundtrip_witness :
  let r := WritePrefix (conn_of [] Silent) [x2a] in
  r.1.2 = None
  ∧ outgoing r.2 = [[x01; x00; x00; x00; x2a]]
  ∧ ReadPrefix 1 (loopback r.2) = Ret ([x2a], None, conn_of [] Closed).
Proof.
  apply (WritePrefix_ReadPrefix_roundtrip (conn_of [] Silent) [x2a] 0);
    [reflexivity | reflexivity | vm_compute; reflexivity].
Defined.

(** * The address book *)

(** ** Map iteration *)

(** [pick_first] is an iteration order that the language allows. *)
Lemma pick_first_sound : range_sound pick_first.
Proof.
  intros k start seen cur a H. unfold pick_first in H.
  apply head_Some_elem_of, list_elem_of_filter in H as [Hn Hin].
  by apply elem_of_elements in Hin.
Qed.

Lemma pick_first_complete : range_complete pick_first.
Proof.
  intros k start seen cur Hsub H a Ha. unfold pick_first in H.
  apply head_None in H.
  destruct (decide (a ∈ seen)) as [|Hn]; [done|].
  exfalso. eapply (filter_nil_not_elem_of _ _ a H); [done|].
  apply elem_of_elements. by apply Hsub.
Qed.

(** A duplicate-free list of members is no longer than the set. *)
Lemma NoDup_length_le_size (l : list NetAddress) (X : gset NetAddress) :
  NoDup l → (∀ a, a ∈ l → a ∈ X) → (length l ≤ size X)%nat.
Proof.
  intros Hnd Hsub. rewrite <- (size_list_to_set (C := gset NetAddress) l Hnd).
  apply subseteq_size. intros a Ha. apply Hsub. by apply elem_of_list_to_set in Ha.
Qed.

Lemma NoDup_length_eq_size (l : list NetAddress) (X : gset NetAddress) :
  NoDup l → (∀ a, a ∈ l → a ∈ X) → (∀ a, a ∈ X → a ∈ l) → length l = size X.
Proof.
  intros Hnd Hsub Hsup. rewrite <- (size_list_to_set (C := gset NetAddress) l Hnd).
  f_equal. apply set_eq. intros a. rewrite elem_of_list_to_set. naive_solver.
Qed.

Section Server.
Variable codec : Codec.
Variable pick : nat → gset NetAddress → list NetAddress → gset NetAddress
                → option NetAddress.
Hypothesis pick_sound : range_sound pick.
Hypothesis pick_complete : range_complete pick.

  (** The loop of [sharePeers], started with the keys produced so far. *)
Lemma sharePeers_loop_spec k book num seen :
  NoDup seen → (∀ a, a ∈ seen → a ∈ book) →
  let r := sharePeers_loop pick k book num seen seen in
  NoDup r ∧ (∀ a, a ∈ r → a ∈ book)
  ∧ length r = (size book `min` (length seen + num))%nat.
Proof.
  revert seen. induction num as [|num IH]; intros seen Hnd Hsub; cbn.
  - pose proof (NoDup_length_le_size _ _ Hnd Hsub).
    destruct (pick k book seen book); (split; [done|split; [done|lia]]).
  - destruct (pick k book seen book) as [addr|] eqn:E.
    + apply pick_sound in E as [Hin Hnew].
      destruct (IH (seen ++ [addr])) as (H1 & H2 & H3).
      * apply list.NoDup_app. split; [done|]. split; [|apply NoDup_singleton].
        intros x Hx ->%list_elem_of_singleton. done.
      * intros a [?| ->%list_elem_of_singleton]%elem_of_app; auto.
      * split; [done|split; [done|]]. rewrite H3, length_app. simpl. lia.
    + pose proof (pick_complete _ _ _ _ (reflexivity book) E) as Hall.
      pose proof (NoDup_length_eq_size _ _ Hnd Hsub Hall).
      split; [done|split; [done|lia]].
Qed.
End Server.

(** C3: whatever order the map iteration takes, [sharePeers], asked for [c]
    peers, selects a list of exactly [min N c] addresses, where [N] is the
    size of the book, without duplicates, all of them in the book, and
    replies with it: on a connection that takes the write, one write is
    added to what has been written, the 4 bytes of the length of the
    encoded list followed by the encoded list, and nil is returned (when
    the write fails, its error is returned and nothing is written).  A
    payload that is not one byte long is answered by an error, and the
    connection is left as it was: nothing is written. *)
Theorem sharePeers_reply (codec : Codec)
    (pick : nat → gset NetAddress → list NetAddress → gset NetAddress → option NetAddress)
    (conn : Conn) (c : byte) (tcps : TCPServer) (w : World) :
  range_sound pick → range_complete pick →
  (∃ addrs,
      length addrs = (size (addressbook tcps) `min` Byte.to_nat c)%nat
      ∧ NoDup addrs
      ∧ (∀ a, a ∈ addrs → a ∈ addressbook tcps)
      ∧ sharePeers codec pick conn [c] tcps w
        = match wfail conn with
          | Some e => (Some e, conn)
          | None =>
              (None,
               set_outgoing
                 (outgoing conn
                  ++ [take 4 (EncUint64 (Z.of_nat (length (Marshal_addrs codec addrs))))
                      ++ Marshal_addrs codec addrs])
                 conn)
          end)
  ∧ (∀ msgData, length msgData ≠ 1%nat →
       sharePeers codec pick conn msgData tcps w
       = (Some (errors_New "invalid number of peers"), conn)).
Proof.
  intros Hs Hc. split.
  - exists (sharePeers_loop pick (clock w) (addressbook tcps) (Byte.to_nat c) [] []).
    destruct (sharePeers_loop_spec pick Hs Hc (clock w) (addressbook tcps)
                (Byte.to_nat c) []) as (H1 & H2 & H3).
    { constructor. } { by intros a ?%elem_of_nil. }
    split; [exact H3|]. split; [exact H1|]. split; [exact H2|].
    unfold sharePeers, WritePrefix, Write.
    by destruct (wfail conn).
  - intros msgData Hlen. unfold sharePeers.
    destruct msgData as [|b [|b' l]]; done.
Qed.

(** C3 at one input: two of the three peers of [book3], written as one
    frame. *)
Lemma sharePeers_reply_witness :
  (∃ addrs,
      length addrs = (size (addressbook book3) `min` Byte.to_nat x02)%nat
      ∧ NoDup addrs
      ∧ (∀ a, a ∈ addrs → a ∈ addressbook book3)
      ∧ sharePeers refCodec pick_first (conn_of [] Closed) [x02] book3 w0
        = (None,
           mkConn [] Closed
             [take 4 (EncUint64 (Z.of_nat (length (Marshal_addrs refCodec addrs))))
              ++ Marshal_addrs refCodec addrs]
             None ""))
  ∧ (∀ msgData, length msgData ≠ 1%nat →
       sharePeers refCodec pick_first (conn_of [] Closed) msgData book3 w0
       = (Some (errors_New "invalid number of peers"), conn_of [] Closed)).
Proof.
  apply (sharePeers_reply refCodec pick_first (conn_of [] Closed) x02 book3 w0
           pick_first_sound pick_first_complete).
Defined.

(** There the reply is the frame of the encoding of [P3] and [P1]. *)
Example sharePeers_writes_frame :
  outgoing (sharePeers refCodec pick_first (conn_of [] Closed) [x02] book3 w0).2
  = [frame (enc_addrs [P3; P1])].
Proof. vm_compute. reflexivity. Qed.

(** The two peers are the first two of the iteration. *)
Example sharePeers_two_of_three :
  sharePeers_loop pick_first 0 (addressbook book3) 2 [] [] = [P3; P1].
Proof. vm_compute. reflexivity. Qed.

(** C7, as stated, fails: on the empty book [RandomPeer] returns the zero
    address, a default value, and the caller cannot tell it from the answer
    of a book that holds that address. *)
Lemma RandomPeer_empty_book_default :
  RandomPeer pick_first (NewTCPServer 9988) w0 = zero_NetAddress
  ∧ RandomPeer pick_first (addressbook_add zero_NetAddress (NewTCPServer 9988)) w0
    = zero_NetAddress.
Proof. split; vm_compute; reflexivity. Qed.

(** C7, amended: on the empty book [RandomPeer] returns the zero
    [NetAddress]; on any other book it returns a member of the book, namely
    the key that the iteration over the map produces first. *)
Theorem RandomPeer_first_of_range
    (pick : nat → gset NetAddress → list NetAddress → gset NetAddress → option NetAddress)
    (tcps : TCPServer) (w : World) :
  range_sound pick → range_complete pick →
  if decide (addressbook tcps = ∅)
  then RandomPeer pick tcps w = zero_NetAddress
  else RandomPeer pick tcps w ∈ addressbook tcps
       ∧ pick (clock w) (addressbook tcps) [] (addressbook tcps)
         = Some (RandomPeer pick tcps w).
Proof.
  intros Hs Hc. unfold RandomPeer.
  destruct (pick (clock w) (addressbook tcps) [] (addressbook tcps)) as [addr|] eqn:E.
  - pose proof (Hs _ _ _ _ _ E) as [Hin _].
    destruct (decide _) as [He|_]; [|done].
    rewrite He in Hin. by apply not_elem_of_empty in Hin.
  - destruct (decide _) as [_|Hne]; [done|]. exfalso. apply Hne.
    apply set_eq. intros a. split; [|by intros ?%not_elem_of_empty].
    intros Ha. by apply (Hc _ _ _ _ (reflexivity _) E), elem_of_nil in Ha.
Qed.

(** C7, amended, at one input: the book of three peers. *)
Lemma RandomPeer_first_of_range_witness :
  if decide (addressbook book3 = ∅)
  then RandomPeer pick_first book3 w0 = zero_NetAddress
  else RandomPeer pick_first book3 w0 ∈ addressbook book3
       ∧ pick_first (clock w0) (addressbook book3) [] (addressbook book3)
         = Some (RandomPeer pick_first book3 w0).
Proof.
  apply (RandomPeer_first_of_range pick_first book3 w0
           pick_first_sound pick_first_complete).
Defined.

(** * Handler registration *)

(** For an argument that is not nil, the check of [RegisterRPC] is the
    check of the signature: the handler is bound when the type is
    [func(T) error], and the error is returned, at once, otherwise. *)
Lemma RegisterRPC_spec t typ val tcps :
  RegisterRPC t (Some (typ, val)) tcps
  = if signature_ok typ
    then Ret (None, RegisterHandler t (h_sfn typ val) tcps)
    else Ret (Some (errors_New "registered function has wrong type signature"), tcps).
Proof.
  destruct typ as [| | | | | | | |ins outs]; try reflexivity.
  destruct ins as [|i [|i' ins]], outs as [|o [|o' outs]]; try reflexivity.
  all: destruct o; reflexivity.
Qed.

(** C5, on the code: [RegisterRPC(t, nil)] does not report an error.  The
    type of a nil interface is the nil [Type], and [typ.Kind()] panics.
    Every other argument is answered without a panic: it is bound when its
    type is [func(T) error], and refused with the error otherwise. *)
Theorem RegisterRPC_nil_panics (t : byte) (tcps : TCPServer) :
  RegisterRPC t None tcps = Panic "invalid memory address or nil pointer dereference"
  ∧ ∀ typ val,
      RegisterRPC t (Some (typ, val)) tcps
      = if signature_ok typ
        then Ret (None, RegisterHandler t (h_sfn typ val) tcps)
        else Ret (Some (errors_New "registered function has wrong type signature"), tcps).
Proof. split; [reflexivity|]. intros typ val. apply RegisterRPC_spec. Qed.

(** The second half of C5: when the payload does not decode, the handler
    returns the error of the decoder and the world is as before; no call
    has been logged. *)
Lemma sfn_decode_error codec typ in0 val conn b w err :
  In_ typ 0 = Ret in0 →
  Unmarshal_val codec in0 b = inl err →
  sfn codec typ val conn b w = Ret (Some err, w).
Proof. intros Hin Hdec. unfold sfn. rewrite Hin. cbn. by rewrite Hdec. Qed.

(** When it decodes, the function is called once, with the decoded value. *)
Lemma sfn_invokes codec typ in0 code conn b w v :
  In_ typ 0 = Ret in0 →
  Unmarshal_val codec in0 b = inr v →
  ∃ r, sfn codec typ (v_func code) conn b w = r
       ∧ (∀ e w', r = Ret (e, w') → invoked w' = invoked w ++ [[v]]).
Proof.
  intros Hin Hdec. eexists. split; [reflexivity|].
  unfold sfn. rewrite Hin. cbn. rewrite Hdec. cbn.
  intros e w' H. destruct (code [v]) as [|[| | | | | |[e'|]] l]; by simplify_eq.
Qed.

(** C10: when [RegisterRPC] returns an error the server is unchanged, so
    the handler table is, and so is the binding of [t]. *)
Theorem RegisterRPC_rejected_unchanged (t : byte) (fn : interface) (tcps tcps' : TCPServer)
    (err : error) :
  RegisterRPC t fn tcps = Ret (Some err, tcps') →
  tcps' = tcps ∧ handlerMap tcps' !! t = handlerMap tcps !! t.
Proof.
  destruct fn as [[typ val]|]; [|done].
  rewrite RegisterRPC_spec. destruct (signature_ok typ); intros H; by simplify_eq.
Qed.

(** C10 at one input: a function of two arguments, for the tag of [addPeer]. *)
Lemma RegisterRPC_rejected_unchanged_witness :
  NewTCPServer 9988 = NewTCPServer 9988
  ∧ handlerMap (NewTCPServer 9988) !! x41 = handlerMap (NewTCPServer 9988) !! x41.
Proof.
  apply (RegisterRPC_rejected_unchanged x41
           (Some (T_func [T_NetAddress; T_int] [T_error], v_nilfunc))
           (NewTCPServer 9988) (NewTCPServer 9988)
           (errors_New "registered function has wrong type signature")).
  reflexivity.
Defined.

(** * Peer discovery *)

(** [Ping] answers whether the dial succeeds, and the clock ticks. *)
Lemma Ping_spec dial addr w :
  Ping dial addr w = (is_reachable dial (clock w) addr, tick w).
Proof. unfold Ping, is_reachable. by destruct (dial (clock w) addr). Qed.

(** The addresses that are probed are those of the reply that are not [me]. *)
Lemma probes_spec me addrs k a :
  (∃ j, (j, a) ∈ probes me addrs k) ↔ a ∈ addrs ∧ a ≠ me.
Proof.
  revert k. induction addrs as [|addr rest IH]; intros k; cbn.
  - split; [intros [j H]; by apply elem_of_nil in H|intros [H _]; by apply elem_of_nil in H].
  - destruct (decide (addr ≠ me)) as [Hne|Heq].
    + split.
      * intros [j [H|H]%elem_of_cons].
        -- simplify_eq. split; [left|done].
        -- destruct (proj1 (IH (S k))) as [? ?]; [by eexists|]. split; [by right|done].
      * intros [[->|H]%elem_of_cons Hm].
        -- exists k. left.
        -- destruct (proj2 (IH (S k))) as [j Hj]; [done|]. exists j. by right.
    + apply dec_stable in Heq. subst addr. rewrite IH. split.
      * intros [? ?]. split; [by right|done].
      * intros [[->|H]%elem_of_cons Hm]; done.
Qed.

(** The loop of [requestPeers] adds the probed addresses whose probe
    succeeds, and changes nothing else. *)
Lemma requestPeers_add_spec dial addrs tcps w :
  let r := requestPeers_add dial addrs tcps w in
  myAddr r.1 = myAddr tcps
  ∧ handlerMap r.1 = handlerMap tcps
  ∧ ∀ a, a ∈ addressbook r.1 ↔
         a ∈ addressbook tcps
         ∨ ∃ j, (j, a) ∈ probes (myAddr tcps) addrs (clock w)
                ∧ is_reachable dial j a = true.
Proof.
  revert tcps w. induction addrs as [|addr rest IH]; intros tcps w; cbn.
  - split; [done|]. split; [done|]. intros a. split; [by left|].
    intros [H|[j [H _]]]; [done|]. by apply elem_of_nil in H.
  - destruct (decide (addr ≠ myAddr tcps)) as [Hne|Heq]; [|apply IH].
    rewrite Ping_spec. destruct (is_reachable dial (clock w) addr) eqn:Hr.
    + destruct (IH (addressbook_add addr tcps) (tick w)) as (H1 & H2 & H3).
      split; [exact H1|]. split; [exact H2|]. intros a. rewrite H3. cbn.
      rewrite elem_of_union, elem_of_singleton. split.
      * intros [[->|H]|[j [H ?]]].
        -- right. exists (clock w). split; [left|done].
        -- by left.
        -- right. exists j. split; [by right|done].
      * intros [H|[j [[H|H]%elem_of_cons ?]]].
        -- left. by right.
        -- simplify_eq. left. by left.
        -- right. by exists j.
    + destruct (IH tcps (tick w)) as (H1 & H2 & H3).
      split; [exact H1|]. split; [exact H2|]. intros a. rewrite H3. cbn.
      split.
      * intros [H|[j [H ?]]]; [by left|]. right. exists j. split; [by right|done].
      * intros [H|[j [[H|H]%elem_of_cons ?]]]; [by left| |right; by exists j].
        simplify_eq. congruence.
Qed.

(** C6: when the request is written and the reply decodes to [addrs],
    [requestPeers] returns nil; the probes it makes are those of the
    addresses of [addrs] that are not the node's own; and an address is in
    the book afterwards exactly when it was there before or one of its
    probes succeeded.  So an address of the reply is inserted if and only
    if it is not the node's own address and a ping of it succeeds. *)
Theorem requestPeers_inserts (codec : Codec) (dial : nat → NetAddress → error + Conn)
    (fuel : nat) (conn conn' : Conn) (tcps : TCPServer) (w : World)
    (data : list byte) (addrs : list NetAddress) :
  wfail conn = None →
  ReadPrefix fuel (set_outgoing (outgoing conn ++ [peers_request]) conn)
  = Ret (data, None, conn') →
  Unmarshal_addrs codec data = inr addrs →
  ∃ tcps' w',
    requestPeers codec dial fuel conn tcps w = Ret (None, conn', tcps', w')
    ∧ myAddr tcps' = myAddr tcps
    ∧ (∀ a, (∃ k, (k, a) ∈ probes (myAddr tcps) addrs (clock w))
            ↔ a ∈ addrs ∧ a ≠ myAddr tcps)
    ∧ (∀ a, a ∈ addressbook tcps' ↔
            a ∈ addressbook tcps
            ∨ ∃ k, (k, a) ∈ probes (myAddr tcps) addrs (clock w)
                   ∧ is_reachable dial k a = true).
Proof.
  intros Hw Hread Hdec.
  exists (requestPeers_add dial addrs tcps w).1, (requestPeers_add dial addrs tcps w).2.
  destruct (requestPeers_add_spec dial addrs tcps w) as (H1 & _ & H3).
  split; [|split; [exact H1|split; [intros a; apply probes_spec|exact H3]]].
  unfold requestPeers, Write. rewrite Hw. fold peers_request.
  rewrite Hread. cbn [mbind Outcome_bind]. rewrite Hdec.
  by destruct (requestPeers_add dial addrs tcps w).
Qed.

(** C6 at one input: the reply names [P2], [P3] and the node itself. *)
Lemma requestPeers_inserts_witness :
  let tcps := addressbook_add P1 (NewTCPServer 9988) in
  ∃ tcps' w',
    requestPeers refCodec scenario_dial 1
      (conn_of [frame (enc_addrs [P2; P3; me])] Closed) tcps w0
    = Ret (None, mkConn [] Closed [peers_request] None "", tcps', w')
    ∧ myAddr tcps' = myAddr tcps
    ∧ (∀ a, (∃ k, (k, a) ∈ probes (myAddr tcps) [P2; P3; me] (clock w0))
            ↔ a ∈ [P2; P3; me] ∧ a ≠ myAddr tcps)
    ∧ (∀ a, a ∈ addressbook tcps' ↔
            a ∈ addressbook tcps
            ∨ ∃ k, (k, a) ∈ probes (myAddr tcps) [P2; P3; me] (clock w0)
                   ∧ is_reachable scenario_dial k a = true).
Proof.
  apply (requestPeers_inserts refCodec scenario_dial 1
           (conn_of [frame (enc_addrs [P2; P3; me])] Closed)
           (mkConn [] Closed [peers_request] None "")
           (addressbook_add P1 (NewTCPServer 9988)) w0
           (enc_addrs [P2; P3; me]) [P2; P3; me]);
    vm_compute; reflexivity.
Defined.

(** There [P2] is added, with two probes; [P3] and the node are not. *)
Example requestPeers_scenario :
  (λ r, match r with
        | Ret (err, _, tcps, w) => Some (err, elements (addressbook tcps), clock w)
        | _ => None
        end)
    (requestPeers refCodec scenario_dial 1
       (conn_of [frame (enc_addrs [P2; P3; me])] Closed)
       (addressbook_add P1 (NewTCPServer 9988)) w0)
  = Some (None, [P1; P2], 2%nat).
Proof. vm_compute. reflexivity. Qed.

(** * The node's own address *)

(** The seeding loop probes every peer of the list, one tick each, and adds
    those that answer. *)
Lemma Bootstrap_seed_spec dial peers tcps w :
  let r := Bootstrap_seed dial peers tcps w in
  myAddr r.1 = myAddr tcps
  ∧ handlerMap r.1 = handlerMap tcps
  ∧ clock r.2 = (clock w + length peers)%nat
  ∧ ∀ a, a ∈ addressbook r.1 ↔
         a ∈ addressbook tcps
         ∨ ∃ i, peers !! i = Some a ∧ is_reachable dial (clock w + i) a = true.
Proof.
  revert tcps w. induction peers as [|addr rest IH]; intros tcps w; cbn.
  - split; [done|]. split; [done|]. split; [lia|]. intros a. split; [by left|].
    intros [H|[i [H _]]]; done.
  - rewrite Ping_spec. destruct (is_reachable dial (clock w) addr) eqn:Hr.
    + destruct (IH (addressbook_add addr tcps) (tick w)) as (H1 & H2 & H3 & H4).
      split; [exact H1|]. split; [exact H2|]. split; [rewrite H3; cbn; lia|].
      intros a. rewrite H4. cbn. rewrite elem_of_union, elem_of_singleton. split.
      * intros [[->|H]|[i [H ?]]].
        -- right. exists 0%nat. by rewrite Nat.add_0_r.
        -- by left.
        -- right. exists (S i). split; [done|]. by rewrite Nat.add_succ_r.
      * intros [H|[[|i] [H Hi]]].
        -- left. by right.
        -- left. left. cbn in H. by simplify_eq.
        -- right. exists i. split; [done|]. by rewrite Nat.add_succ_r in Hi.
    + destruct (IH tcps (tick w)) as (H1 & H2 & H3 & H4).
      split; [exact H1|]. split; [exact H2|]. split; [rewrite H3; cbn; lia|].
      intros a. rewrite H4. cbn. split.
      * intros [H|[i [H ?]]]; [by left|].
        right. exists (S i). split; [done|]. by rewrite Nat.add_succ_r.
      * intros [H|[[|i] [H Hi]]]; [by left| |].
        -- cbn in H. simplify_eq. rewrite Nat.add_0_r in Hi. congruence.
        -- right. exists i. split; [done|]. by rewrite Nat.add_succ_r in Hi.
Qed.

(** [requestPeers] never adds the address it compares with. *)
Lemma requestPeers_keeps_own_address_out codec dial fuel conn conn' tcps tcps' w w' err :
  myAddr tcps ∉ addressbook tcps →
  requestPeers codec dial fuel conn tcps w = Ret (err, conn', tcps', w') →
  myAddr tcps' = myAddr tcps ∧ myAddr tcps' ∉ addressbook tcps'.
Proof.
  intros Hinv. unfold requestPeers.
  destruct (Write _ conn) as [[n werr] c1].
  destruct werr; [intros; by simplify_eq|].
  destruct (ReadPrefix fuel c1) as [[[data rerr] c2]| | |]; cbn [mbind Outcome_bind]; try done.
  destruct rerr; [intros; by simplify_eq|].
  destruct (Unmarshal_addrs codec data) as [e|addrs]; [intros; by simplify_eq|].
  destruct (requestPeers_add_spec dial addrs tcps w) as (H1 & _ & H3).
  destruct (requestPeers_add dial addrs tcps w) as [t2 w2]. cbn in *.
  intros H. simplify_eq. split; [done|]. rewrite H1, H3.
  intros [?|[j [Hj _]]]; [done|].
  destruct (proj1 (probes_spec (myAddr tcps) addrs (clock w) (myAddr tcps))); [by eexists|done].
Qed.

(** C2, as stated, fails: a peer-announce message that carries the node's
    own address puts it into the book, and so does a seed list that names
    it, when the dial succeeds. *)
Lemma addPeer_inserts_own_address :
  let tcps := NewTCPServer 9988 in
  (myAddr tcps ∉ addressbook tcps)
  ∧ (∃ tcps', addPeer refCodec (conn_of [] Closed) (enc_addr (myAddr tcps)) tcps
              = (None, tcps')
              ∧ myAddr tcps' ∈ addressbook tcps')
  ∧ myAddr (Bootstrap_seed silent_dial [myAddr tcps] tcps w0).1
    ∈ addressbook (Bootstrap_seed silent_dial [myAddr tcps] tcps w0).1.
Proof.
  split; [apply not_elem_of_empty|]. split.
  - eexists. split; [vm_compute; reflexivity|]. cbn. set_solver.
  - cbn. set_solver.
Qed.

(** C2, amended: of the three operations that insert, [requestPeers]
    keeps the node's own address out of a book that does not hold it;
    [addPeer] inserts the address that decodes, whatever it is; seeding
    inserts every peer of the list whose probe succeeds, whatever it is. *)
Theorem insertions_and_own_address (codec : Codec) (dial : nat → NetAddress → error + Conn)
    (fuel : nat) (conn conn' : Conn) (tcps tcps' : TCPServer) (w w' : World)
    (err : option error) (data : list byte) (addr : NetAddress)
    (peers : list NetAddress) :
  myAddr tcps ∉ addressbook tcps →
  requestPeers codec dial fuel conn tcps w = Ret (err, conn', tcps', w') →
  Unmarshal_addr codec data = inr addr →
  (myAddr tcps' = myAddr tcps ∧ myAddr tcps' ∉ addressbook tcps')
  ∧ addPeer codec conn data tcps = (None, addressbook_add addr tcps)
  ∧ (∀ a, a ∈ addressbook (addressbook_add addr tcps) ↔ a = addr ∨ a ∈ addressbook tcps)
  ∧ (∀ a, a ∈ addressbook (Bootstrap_seed dial peers tcps w).1 ↔
          a ∈ addressbook tcps
          ∨ ∃ i, peers !! i = Some a ∧ is_reachable dial (clock w + i) a = true).
Proof.
  intros Hinv Hreq Hdec. split; [|split; [|split]].
  - by eapply requestPeers_keeps_own_address_out.
  - unfold addPeer. by rewrite Hdec.
  - intros a. cbn. by rewrite elem_of_union, elem_of_singleton.
  - apply Bootstrap_seed_spec.
Qed.

(** C2, amended, at one input. *)
Lemma insertions_and_own_address_witness :
  let tcps := addressbook_add P1 (NewTCPServer 9988) in
  let tcps' := addressbook_add P2 tcps in
  (myAddr tcps' = myAddr tcps ∧ myAddr tcps' ∉ addressbook tcps')
  ∧ addPeer refCodec (conn_of [frame (enc_addrs [P2; P3; me])] Closed) (enc_addr me) tcps
    = (None, addressbook_add me tcps)
  ∧ (∀ a, a ∈ addressbook (addressbook_add me tcps) ↔ a = me ∨ a ∈ addressbook tcps)
  ∧ (∀ a, a ∈ addressbook (Bootstrap_seed scenario_dial [P2; P3] tcps w0).1 ↔
          a ∈ addressbook tcps
          ∨ ∃ i, [P2; P3] !! i = Some a
                 ∧ is_reachable scenario_dial (clock w0 + i) a = true).
Proof.
  apply (insertions_and_own_address refCodec scenario_dial 1
           (conn_of [frame (enc_addrs [P2; P3; me])] Closed)
           (mkConn [] Closed [peers_request] None "")
           (addressbook_add P1 (NewTCPServer 9988))
           (addressbook_add P2 (addressbook_add P1 (NewTCPServer 9988)))
           w0 (mkWorld 2 []) None (enc_addr me) me [P2; P3]).
  - vm_compute. set_solver.
  - vm_compute. reflexivity.
  - vm_compute. reflexivity.
Defined.

(** * Bootstrap *)

(** Whether [ReadPrefix] returns depends on what comes in, not on what has
    been written. *)
Lemma ReadPrefix_loop_same_input fuel msgLen data total c c' :
  same_input c c' →
  returns (ReadPrefix_loop fuel msgLen data total c) →
  ∃ err data' c1', ReadPrefix_loop fuel msgLen data total c' = Ret (err, data', c1').
Proof.
  revert data total c c'. induction fuel as [|fuel IH]; intros data total c c' [Hi He];
    cbn [ReadPrefix_loop]; destruct (total <? msgLen);
    try (intros [? ?]; done); try by eauto.
  unfold ReadFrom. rewrite <- Hi, <- He.
  destruct (ending c) eqn:Hend; cbn [mbind Outcome_bind];
    try (intros [? ?]; done); try by eauto.
  apply IH. split; cbn; congruence.
Qed.

Lemma ReadPrefix_same_input fuel c c' :
  same_input c c' → returns (ReadPrefix fuel c) → returns (ReadPrefix fuel c').
Proof.
  intros [Hi He]. unfold ReadPrefix, Read. rewrite <- Hi, <- He.
  destruct (incoming c) as [|chunk rest].
  - destruct (ending c); cbn; try done; by eexists.
  - cbn [mbind Outcome_bind]. destruct (decide _); [by eexists|].
    destruct (_ >? _); [by eexists|].
    set (c1 := set_incoming _ c). set (c1' := set_incoming _ c').
    intros [r Hr].
    destruct (ReadPrefix_loop fuel _ [] 0 c1) as [[[e d] c2]| | |] eqn:E; try done.
    destruct (ReadPrefix_loop_same_input fuel (DecUint64 (take 4 chunk)) [] 0 c1 c1')
      as (e' & d' & c2' & E').
    { split; cbn; done. } { rewrite E. by eexists. }
    rewrite E'. cbn. destruct e'; [by eexists|]. destruct (decide _); by eexists.
Qed.

Section Bootstrap_returns.
Variable codec : Codec.
Variable dial : nat → NetAddress → error + Conn.
Variable pick : nat → gset NetAddress → list NetAddress → gset NetAddress
                → option NetAddress.
Variable SplitHostPort : string → error + (string * string).

(** The peers that can be reached at all are in [U], and what a peer sends
    lets [ReadPrefix] return. *)
Variable U : gset NetAddress.
Hypothesis pick_sound : range_sound pick.
Hypothesis dial_settles :
  ∀ k a c, dial k a = inr c → a ∈ U ∧ returns (ReadPrefix 1 c).

(** An upper bound of the address book. *)
Variable B : gset NetAddress.
Hypothesis U_in_B : U ⊆ B.

Lemma ReadPrefix_after_Write fuel k a c msg :
  dial k a = inr c → (1 ≤ fuel)%nat →
  returns (ReadPrefix fuel (Write msg c).2).
Proof.
  intros Hd Hf. destruct (dial_settles _ _ _ Hd) as [_ [r Hr]].
  apply (ReadPrefix_same_input fuel c).
  - unfold Write. by destruct (wfail c).
  - exists r. by apply (ReadPrefix_mono 1).
Qed.

Lemma learnHostname_keeps_below fuel :
  (1 ≤ fuel)%nat → keeps_below dial B (learnHostname SplitHostPort fuel).
Proof.
  intros Hf k a c tcps w Hd Hsub. unfold learnHostname.
  pose proof (ReadPrefix_after_Write fuel k a c [x48; x00; x00; x00; x00] Hd Hf) as Hr.
  destruct (Write _ c) as [[n werr] c1]. cbn in Hr.
  destruct werr; [by eauto 10|].
  destruct Hr as [[[data rerr] c2] ->]. cbn [mbind Outcome_bind].
  destruct rerr; [by eauto 10|].
  destruct (SplitHostPort _) as [e|[host port]]; by eauto 10.
Qed.

Lemma requestPeers_add_below addrs tcps w :
  addressbook tcps ⊆ B → addressbook (requestPeers_add dial addrs tcps w).1 ⊆ B.
Proof.
  intros Hsub a Ha.
  destruct (requestPeers_add_spec dial addrs tcps w) as (_ & _ & H).
  apply H in Ha as [Ha|[j [_ Hr]]]; [by apply Hsub|].
  unfold is_reachable in Hr. destruct (dial j a) eqn:Hd; [done|].
  apply U_in_B. by apply (dial_settles j a c).
Qed.

Lemma requestPeers_keeps_below fuel :
  (1 ≤ fuel)%nat → keeps_below dial B (requestPeers codec dial fuel).
Proof.
  intros Hf k a c tcps w Hd Hsub. unfold requestPeers.
  pose proof (ReadPrefix_after_Write fuel k a c [x50; x01; x00; x00; x00; x0a] Hd Hf)
    as Hr.
  destruct (Write _ c) as [[n werr] c1]. cbn in Hr.
  destruct werr; [by eauto 10|].
  destruct Hr as [[[data rerr] c2] ->]. cbn [mbind Outcome_bind].
  destruct rerr; [by eauto 10|].
  destruct (Unmarshal_addrs codec data) as [e|addrs]; [by eauto 10|].
  pose proof (requestPeers_add_below addrs tcps w Hsub).
  destruct (requestPeers_add dial addrs tcps w) as [t2 w2]. by eauto 10.
Qed.

Lemma SendVal_keeps_below t val : keeps_below dial B (SendVal codec t val).
Proof.
  intros k a c tcps w Hd Hsub. unfold SendVal.
  destruct (Write _ c) as [[n werr] c1]. by eauto 10.
Qed.

Lemma Call_returns na fn tcps w :
  keeps_below dial B fn → addressbook tcps ⊆ B →
  ∃ err tcps' w', Call dial na fn tcps w = Ret (err, tcps', w')
                  ∧ addressbook tcps' ⊆ B.
Proof.
  intros Hfn Hsub. unfold Call. destruct (dial (clock w) na) as [e|c] eqn:Hd.
  - by eauto 10.
  - destruct (Hfn _ _ _ tcps (tick w) Hd Hsub) as (err & c' & tcps' & w' & -> & ?).
    cbn. by eauto 10.
Qed.

(** A loop over the book produces each key once, so it takes at most as
    many turns as [B] has members. *)
Lemma seen_room (seen : list NetAddress) (tcps : TCPServer) a k start :
  NoDup seen → (∀ x, x ∈ seen → x ∈ B) → addressbook tcps ⊆ B →
  pick k start seen (addressbook tcps) = Some a →
  NoDup (seen ++ [a]) ∧ (∀ x, x ∈ seen ++ [a] → x ∈ B)
  ∧ (length seen < size B)%nat.
Proof.
  intros Hnd Hin Hsub [Ha Hnew]%pick_sound.
  assert (NoDup (seen ++ [a])) as Hnd'.
  { apply list.NoDup_app. split; [done|]. split; [|apply NoDup_singleton].
    intros x Hx ->%list_elem_of_singleton. done. }
  assert (∀ x, x ∈ seen ++ [a] → x ∈ B) as Hin'.
  { intros x [?| ->%list_elem_of_singleton]%elem_of_app; auto. }
  split; [done|]. split; [done|].
  pose proof (NoDup_length_le_size _ _ Hnd' Hin') as Hle.
  rewrite length_app in Hle. simpl in Hle. lia.
Qed.

Lemma Broadcast_loop_returns fn :
  keeps_below dial B fn →
  ∀ n fuel start seen tcps w,
    (size B ≤ n + length seen)%nat → (n ≤ fuel)%nat →
    NoDup seen → (∀ x, x ∈ seen → x ∈ B) → addressbook tcps ⊆ B →
    ∃ tcps' w', Broadcast_loop dial pick fuel fn start seen tcps w = Ret (tcps', w')
                ∧ addressbook tcps' ⊆ B.
Proof.
  intros Hfn. induction n as [|n IH]; intros fuel start seen tcps w Hn Hf Hnd Hin Hsub.
  - destruct (pick (clock w) start seen (addressbook tcps)) as [a|] eqn:E.
    + destruct (seen_room seen tcps a _ _ Hnd Hin Hsub E) as (_ & _ & ?). lia.
    + destruct fuel; cbn; rewrite E; by eauto.
  - destruct (pick (clock w) start seen (addressbook tcps)) as [a|] eqn:E.
    + destruct (seen_room seen tcps a _ _ Hnd Hin Hsub E) as (Hnd' & Hin' & ?).
      destruct fuel as [|fuel]; [lia|]. cbn. rewrite E.
      destruct (Call_returns a fn tcps w Hfn Hsub) as (err & t1 & w1 & -> & Hsub1).
      cbn. apply IH; try done; [rewrite length_app; simpl; lia|lia].
    + destruct fuel; cbn; rewrite E; by eauto.
Qed.

Lemma Bootstrap_learn_returns :
  ∀ n fuel start seen tcps w,
    (size B ≤ n + length seen)%nat → (n < fuel)%nat →
    NoDup seen → (∀ x, x ∈ seen → x ∈ B) → addressbook tcps ⊆ B →
    ∃ tcps' w', Bootstrap_learn dial pick SplitHostPort fuel start seen tcps w
                = Ret (tcps', w')
                ∧ addressbook tcps' ⊆ B.
Proof.
  induction n as [|n IH]; intros fuel start seen tcps w Hn Hf Hnd Hin Hsub.
  - destruct (pick (clock w) start seen (addressbook tcps)) as [a|] eqn:E.
    + destruct (seen_room seen tcps a _ _ Hnd Hin Hsub E) as (_ & _ & ?). lia.
    + destruct fuel; cbn; rewrite E; by eauto.
  - destruct (pick (clock w) start seen (addressbook tcps)) as [a|] eqn:E.
    + destruct (seen_room seen tcps a _ _ Hnd Hin Hsub E) as (Hnd' & Hin' & ?).
      destruct fuel as [|fuel]; [lia|]. cbn. rewrite E.
      destruct (Call_returns a (learnHostname SplitHostPort fuel) tcps w)
        as (err & t1 & w1 & -> & Hsub1); [apply learnHostname_keeps_below; lia|done|].
      cbn. destruct err; [|by eauto].
      apply IH; try done; [rewrite length_app; simpl; lia|lia].
    + destruct fuel; cbn; rewrite E; by eauto.
Qed.

End Bootstrap_returns.

(** [err] is never assigned: what [Bootstrap] returns is nil. *)
Lemma Bootstrap_error_nil codec dial pick SplitHostPort BootstrapPeers fuel tcps w
    err tcps' w' :
  Bootstrap codec dial pick SplitHostPort BootstrapPeers fuel tcps w
  = Ret (err, tcps', w') →
  err = None.
Proof.
  unfold Bootstrap.
  destruct (Bootstrap_seed dial BootstrapPeers tcps w) as [t1 w1].
  destruct (Bootstrap_learn _ _ _ _ _ _ _ _) as [[t2 w2]| | |]; cbn; try done.
  destruct (Broadcast _ _ _ _ t2 w2) as [[t3 w3]| | |]; cbn; try done.
  destruct (Broadcast _ _ _ _ t3 w3) as [[t4 w4]| | |]; cbn; try done.
  intros H. by simplify_eq.
Qed.

(** C9, as stated, fails: a seed that accepts the connection and then
    neither answers the hostname request nor closes keeps [Bootstrap]
    waiting in [ReadPrefix]; no read has a deadline.  [Bootstrap] returns no
    error, and nothing else. *)
Lemma Bootstrap_waits_for_silent_peer :
  ¬ ∃ fuel r,
      Bootstrap refCodec silent_dial pick_first split_host_port [P1] fuel
        (NewTCPServer 9988) w0 = Ret r.
Proof.
  intros (fuel & r & H). destruct fuel; vm_compute in H; discriminate.
Qed.

(** C9, amended: [Bootstrap] never returns an error other than nil; and it
    does return, with nil, whatever fails (dials, writes, replies that are
    refused or do not decode), as long as the peers that can be reached are
    finitely many and what each of them sends lets [ReadPrefix] return. *)
Theorem Bootstrap_returns_nil (codec : Codec) (dial : nat → NetAddress → error + Conn)
    (pick : nat → gset NetAddress → list NetAddress → gset NetAddress → option NetAddress)
    (SplitHostPort : string → error + (string * string))
    (BootstrapPeers : list NetAddress) (U : gset NetAddress)
    (tcps : TCPServer) (w : World) :
  range_sound pick →
  (∀ k a c, dial k a = inr c → a ∈ U ∧ returns (ReadPrefix 1 c)) →
  (∀ fuel err tcps' w',
      Bootstrap codec dial pick SplitHostPort BootstrapPeers fuel tcps w
      = Ret (err, tcps', w') →
      err = None)
  ∧ (∀ fuel, (size (addressbook tcps ∪ U) < fuel)%nat →
       ∃ tcps' w',
         Bootstrap codec dial pick SplitHostPort BootstrapPeers fuel tcps w
         = Ret (None, tcps', w')).
Proof.
  intros Hs Hd. split; [intros fuel err tcps' w'; apply Bootstrap_error_nil|].
  intros fuel Hf. set (B := addressbook tcps ∪ U) in *.
  assert (U ⊆ B) as HU by (intros a Ha; apply elem_of_union; by right).
  unfold Bootstrap.
  assert (addressbook (Bootstrap_seed dial BootstrapPeers tcps w).1 ⊆ B) as H1.
  { intros a Ha. destruct (Bootstrap_seed_spec dial BootstrapPeers tcps w) as (_ & _ & _ & H).
    apply H in Ha as [Ha|[i [_ Hr]]]; [apply elem_of_union; by left|].
    unfold is_reachable in Hr. destruct (dial _ a) eqn:E; [done|].
    apply HU. by destruct (Hd _ _ _ E). }
  destruct (Bootstrap_seed dial BootstrapPeers tcps w) as [t1 w1]. cbn in H1.
  destruct (Bootstrap_learn_returns dial pick SplitHostPort U Hs Hd B
              (size B) fuel (addressbook t1) [] t1 w1) as (t2 & w2 & -> & H2);
    [simpl; lia|lia|constructor|by intros x ?%elem_of_nil|done|].
  cbn [mbind Outcome_bind]. unfold Broadcast.
  destruct (Broadcast_loop_returns dial pick Hs B (requestPeers codec dial fuel)
              (requestPeers_keeps_below codec dial U Hd B HU fuel ltac:(lia))
              (size B) fuel (addressbook t2) [] t2 w2) as (t3 & w3 & -> & H3);
    [simpl; lia|lia|constructor|by intros x ?%elem_of_nil|done|].
  cbn [mbind Outcome_bind].
  destruct (Broadcast_loop_returns dial pick Hs B (SendVal codec x41 (myAddr t3))
              (SendVal_keeps_below codec dial B x41 (myAddr t3))
              (size B) fuel (addressbook t3) [] t3 w3) as (t4 & w4 & -> & H4);
    [simpl; lia|lia|constructor|by intros x ?%elem_of_nil|done|].
  cbn. by eauto.
Qed.

(** The peers of the scenario are two, and their replies are complete. *)
Lemma scenario_dial_settles k a c :
  scenario_dial k a = inr c → a ∈ ({[P1; P2]} : gset NetAddress) ∧ returns (ReadPrefix 1 c).
Proof.
  unfold scenario_dial. intros H.
  repeat case_decide; simplify_eq; (split; [set_solver|eexists; vm_compute; reflexivity]).
Qed.

(** C9, amended, at one input: the scenario of the specification. *)
Lemma Bootstrap_returns_nil_witness :
  (∀ fuel err tcps' w',
      Bootstrap refCodec scenario_dial pick_first split_host_port [P1] fuel
        (NewTCPServer 9988) w0 = Ret (err, tcps', w') →
      err = None)
  ∧ (∀ fuel, (size (addressbook (NewTCPServer 9988) ∪ {[P1; P2]}) < fuel)%nat →
       ∃ tcps' w',
         Bootstrap refCodec scenario_dial pick_first split_host_port [P1] fuel
           (NewTCPServer 9988) w0 = Ret (None, tcps', w')).
Proof.
  apply (Bootstrap_returns_nil refCodec scenario_dial pick_first split_host_port [P1]
           {[P1; P2]} (NewTCPServer 9988) w0 pick_first_sound scenario_dial_settles).
Defined.

(** The scenario itself: the node learns its host, and ends with [P1] and
    [P2] in the book. *)
Example Bootstrap_scenario :
  (λ r, match r with
        | Ret (err, tcps, _) => Some (err, myAddr tcps, elements (addressbook tcps))
        | _ => None
        end)
    (Bootstrap refCodec scenario_dial pick_first split_host_port [P1] 3
       (NewTCPServer 9988) w0)
  = Some (None, mkNetAddress "203.0.113.5" 9988, [P1; P2]).
Proof. vm_compute. reflexivity. Qed.

(** * Further properties *)

(** ** More on [ReadPrefix] *)

(** The 4 bytes of the length must come with the first read.  When the first
    chunk is shorter, or the stream is over, the message is refused, even
    if the rest of the prefix would follow; the bytes of the short chunk are
    gone, and nothing is written. *)
Theorem ReadPrefix_needs_prefix_in_one_read (fuel : nat) (c : Conn) :
  match incoming c with
  | [] => ending c ≠ Silent
  | chunk :: _ => (length chunk < 4)%nat
  end →
  ∃ c', ReadPrefix fuel c
        = Ret ([], Some (errors_New "could not read length prefix"), c')
        ∧ incoming c' = tail (incoming c)
        ∧ outgoing c' = outgoing c.
Proof.
  unfold ReadPrefix, Read. destruct (incoming c) as [|chunk rest] eqn:Hin.
  - intros He. destruct (ending c) eqn:E; [| |done]; cbn [mbind Outcome_bind];
      (rewrite decide_True by (left; done)); eexists; (split; [done|]);
      by rewrite Hin.
  - intros Hlen. cbn [mbind Outcome_bind].
    rewrite decide_True by (right; rewrite length_take; lia).
    eexists. split; [done|]. cbn. by rewrite drop_ge by lia.
Qed.

Lemma ReadPrefix_needs_prefix_in_one_read_witness :
  ∃ c', ReadPrefix 1 (conn_of [[x02; x00]; [x00; x00; x07; x08]] Closed)
        = Ret ([], Some (errors_New "could not read length prefix"), c')
        ∧ incoming c' = [[x00; x00; x07; x08]]
        ∧ outgoing c' = [].
Proof.
  apply (ReadPrefix_needs_prefix_in_one_read 1
           (conn_of [[x02; x00]; [x00; x00; x07; x08]] Closed)).
  simpl. lia.
Defined.

Lemma Read_prefix_pending c chunk rest :
  incoming c = chunk :: rest →
  pending (set_incoming match drop 4 chunk with [] => rest | l => l :: rest end c)
  = drop 4 chunk ++ concat rest.
Proof. intros _. unfold pending. cbn. by destruct (drop 4 chunk). Qed.

(** A message of length 0 is returned at once: the loop is not entered, so
    no fuel is needed and the end of the stream is not waited for; what
    follows the prefix stays on the connection. *)
Theorem ReadPrefix_zero_length (fuel : nat) (c : Conn) (chunk : list byte)
    (rest : list (list byte)) :
  incoming c = chunk :: rest → (4 ≤ length chunk)%nat →
  DecUint64 (take 4 chunk) = 0 →
  ∃ c', ReadPrefix fuel c = Ret ([], None, c')
        ∧ pending c' = drop 4 chunk ++ concat rest
        ∧ ending c' = ending c ∧ outgoing c' = outgoing c.
Proof.
  intros Hin Hlen HL. unfold ReadPrefix, Read. rewrite Hin. cbn [mbind Outcome_bind].
  rewrite decide_False by (rewrite length_take; intros [?|?]; [congruence|lia]).
  rewrite HL. change (0 >? maxMsgLen) with false. cbv iota.
  eexists. split.
  - destruct fuel; cbn; reflexivity.
  - split; [by apply Read_prefix_pending|done].
Qed.

Lemma ReadPrefix_zero_length_witness :
  ∃ c', ReadPrefix 0 (conn_of [[x00; x00; x00; x00; x07]; [x08]] Silent)
        = Ret ([], None, c')
        ∧ pending c' = [x07; x08]
        ∧ ending c' = Silent ∧ outgoing c' = [].
Proof.
  apply (ReadPrefix_zero_length 0 (conn_of [[x00; x00; x00; x00; x07]; [x08]] Silent)
           [x00; x00; x00; x00; x07] [[x08]]);
    [reflexivity | simpl; lia | reflexivity].
Defined.

(** When the loop returns without error it either did not run, or it ran
    once, to the end of a stream that the peer closed. *)
Lemma ReadPrefix_loop_Ret fuel L c data c' :
  ReadPrefix_loop fuel L [] 0 c = Ret (None, data, c') →
  (L ≤ 0 ∧ data = [] ∧ c' = c)
  ∨ (0 < L ≤ Z.of_nat (length data) ∧ ending c = Closed
     ∧ data = pending c ∧ c' = set_incoming [] c).
Proof.
  intros H. apply ReadPrefix_loop_one in H. cbn [ReadPrefix_loop] in H.
  destruct (Z.ltb_spec 0 L) as [Hpos|Hle].
  - right. unfold ReadFrom in H. destruct (ending c) eqn:He; cbn in H; try done.
    destruct (Z.ltb_spec (0 + Z.of_nat (length (concat (incoming c)))) L); [done|].
    simplify_eq. split; [lia|done].
  - left. by simplify_eq.
Qed.

(** [ReadPrefix] never returns a message that is shorter or longer than its
    prefix says, nor one of more than 65536 bytes; and a message that is not
    empty is all that came after the prefix, up to the end of the stream. *)
Theorem ReadPrefix_result_length (fuel : nat) (c c' : Conn) (data : list byte) :
  ReadPrefix fuel c = Ret (data, None, c') →
  ∃ chunk rest,
    incoming c = chunk :: rest
    ∧ Z.of_nat (length data) = DecUint64 (take 4 chunk)
    ∧ Z.of_nat (length data) ≤ 65536
    ∧ (data = []
       ∨ (data = drop 4 chunk ++ concat rest ∧ ending c = Closed ∧ incoming c' = [])).
Proof.
  unfold ReadPrefix, Read. destruct (incoming c) as [|chunk rest] eqn:Hin.
  - destruct (ending c); cbn [mbind Outcome_bind]; try done;
      by rewrite decide_True by (left; done).
  - cbn [mbind Outcome_bind]. destruct (decide _) as [|Hok]; [done|].
    rewrite maxMsgLen_eq.
    destruct (Z.gtb_spec (DecUint64 (take 4 chunk)) 65536) as [|Hmax]; [done|].
    set (c1 := set_incoming _ c).
    destruct (ReadPrefix_loop fuel _ [] 0 c1) as [[[e d] c2]| | |] eqn:E; try done.
    cbn [mbind Outcome_bind]. destruct e; [done|].
    destruct (decide _) as [|Heq]; [done|]. apply dec_stable in Heq.
    intros H. simplify_eq. exists chunk, rest.
    split; [done|]. split; [done|]. split; [lia|].
    apply ReadPrefix_loop_Ret in E as [(_ & -> & _)|(_ & He & Hd & Hc)]; [by left|].
    right. subst c'. split; [|done].
    rewrite Hd. unfold c1. by apply Read_prefix_pending.
Qed.

Lemma ReadPrefix_result_length_witness :
  ∃ chunk rest,
    incoming (conn_of [[x02; x00; x00; x00; x07]; [x08]] Closed) = chunk :: rest
    ∧ Z.of_nat (length [x07; x08]) = DecUint64 (take 4 chunk)
    ∧ Z.of_nat (length [x07; x08]) ≤ 65536
    ∧ ([x07; x08] = []
       ∨ ([x07; x08] = drop 4 chunk ++ concat rest
          ∧ ending (conn_of [[x02; x00; x00; x00; x07]; [x08]] Closed) = Closed
          ∧ incoming (conn_of [] Closed) = [])).
Proof.
  apply (ReadPrefix_result_length 1 (conn_of [[x02; x00; x00; x00; x07]; [x08]] Closed)
           (conn_of [] Closed) [x07; x08]).
  vm_compute. reflexivity.
Defined.

(** A connection carries one message: after a message that is not empty
    has been read, a second [ReadPrefix] on the same connection finds the
    stream at its end. *)
Theorem ReadPrefix_twice (fuel fuel' : nat) (c c' : Conn) (data : list byte) :
  ReadPrefix fuel c = Ret (data, None, c') → data ≠ [] →
  ReadPrefix fuel' c'
  = Ret ([], Some (errors_New "could not read length prefix"), c').
Proof.
  intros H Hne. pose proof H as H0. revert H0.
  unfold ReadPrefix at 1, Read. destruct (incoming c) as [|chunk rest] eqn:Hin.
  - destruct (ending c); cbn [mbind Outcome_bind]; try done;
      by rewrite decide_True by (left; done).
  - cbn [mbind Outcome_bind]. destruct (decide _) as [|Hok]; [done|].
    destruct (_ >? _); [done|].
    set (c1 := set_incoming _ c).
    destruct (ReadPrefix_loop fuel _ [] 0 c1) as [[[e d] c2]| | |] eqn:E; try done.
    cbn [mbind Outcome_bind]. destruct e; [done|].
    destruct (decide _) as [|Heq]; [done|].
    intros H0. simplify_eq.
    apply ReadPrefix_loop_Ret in E as [(_ & -> & _)|(_ & He & _ & ->)]; [done|].
    unfold ReadPrefix, Read. subst c1. cbn [incoming set_incoming ending] in *.
    rewrite He. cbn [mbind Outcome_bind].
    by rewrite decide_True by (left; done).
Qed.

Lemma ReadPrefix_twice_witness :
  ReadPrefix 1 (conn_of [] Closed)
  = Ret ([], Some (errors_New "could not read length prefix"), conn_of [] Closed).
Proof.
  apply (ReadPrefix_twice 1 1 (conn_of [[x01; x00; x00; x00; x07]] Closed)
           (conn_of [] Closed) [x07]); [vm_compute; reflexivity | done].
Defined.

Lemma ReadPrefix_closed_stream_witness :
  ReadPrefix 1 (conn_of [[x02; x00; x00; x00; x07]; [x08]] Closed)
  = Ret ([x07; x08], None, conn_of [] Closed).
Proof.
  apply (ReadPrefix_closed_stream 1 (conn_of [[x02; x00; x00; x00; x07]; [x08]] Closed)
           [x02; x00; x00; x00; x07] [[x08]]);
    [reflexivity | reflexivity | simpl; lia | vm_compute; split; congruence].
Defined.

(** ** The dispatcher *)




(** Whatever [ReadPrefix] returns as a message has at most 65536 bytes. *)
Lemma ReadPrefix_data_bound fuel c data e c' :
  ReadPrefix fuel c = Ret (data, e, c') → Z.of_nat (length data) ≤ 65536.
Proof.
  unfold ReadPrefix.
  destruct (Read 4 c) as [[[prefix err] c1]| | |]; cbn [mbind Outcome_bind]; try done.
  destruct (decide _); [intros E; by simplify_eq|].
  rewrite maxMsgLen_eq.
  destruct (Z.gtb_spec (DecUint64 prefix) 65536) as [|Hmax]; [intros E; by simplify_eq|].
  destruct (ReadPrefix_loop fuel _ [] 0 c1) as [[[e1 d] c2]| | |];
    cbn [mbind Outcome_bind]; try done.
  destruct e1; [intros E; by simplify_eq|].
  destruct (decide _) as [|Heq]; intros E; simplify_eq; [done|].
  apply dec_stable in Heq. lia.
Qed.

Lemma length_frame data : length (frame data) = (4 + length data)%nat.
Proof.
  unfold frame, EncUint64. rewrite length_app, firstn_le_bytes by lia.
  by rewrite length_le_bytes.
Qed.

(** One message in one chunk, on a stream that the sender has closed. *)
Lemma handleConn_message codec pick fuel c t data tcps w :
  incoming c = [t :: frame data] → ending c = Closed →
  Z.of_nat (length data) ≤ 65536 →
  handleConn codec pick (S fuel) c tcps w
  = match handlerMap tcps !! t with
    | Some fn =>
        '(_, conn, tcps, w) ← call_handler codec pick fn (set_incoming [] c) data tcps w;
        Ret (conn, tcps, w)
    | None => Ret (set_incoming [] c, tcps, w)
    end.
Proof.
  intros Hin Hend Hlen. unfold handleConn, Read. rewrite Hin.
  cbn [mbind Outcome_bind firstn skipn].
  pose proof (length_frame data) as Hf.
  destruct (frame data) as [|b l] eqn:E; [simpl in Hf; lia|]. rewrite <- E.
  rewrite (ReadPrefix_roundtrip fuel data); [|done|done|done].
  cbn [mbind Outcome_bind]. done.
Qed.

(** Registration and dispatch: after [RegisterHandler(t, fn)] a message
    with the tag [t] is handed to [fn], with its payload, whatever was
    bound to [t] before; the other tags keep their handlers. *)
Theorem handleConn_dispatch (codec : Codec)
    (pick : nat → gset NetAddress → list NetAddress → gset NetAddress → option NetAddress)
    (fuel : nat) (c : Conn) (t : byte) (fn : Handler) (data : list byte)
    (tcps : TCPServer) (w : World) :
  incoming c = [t :: frame data] → ending c = Closed →
  Z.of_nat (length data) ≤ 65536 →
  handleConn codec pick (S fuel) c (RegisterHandler t fn tcps) w
  = ('(_, conn, tcps', w') ← call_handler codec pick fn (set_incoming [] c) data
                               (RegisterHandler t fn tcps) w;
     Ret (conn, tcps', w'))
  ∧ ∀ t', t' ≠ t → handlerMap (RegisterHandler t fn tcps) !! t' = handlerMap tcps !! t'.
Proof.
  intros Hin Hend Hlen. split.
  - rewrite (handleConn_message codec pick fuel c t data) by done.
    cbn [RegisterHandler handlerMap]. by rewrite lookup_insert_eq.
  - intros t' Hne. cbn [RegisterHandler handlerMap]. by rewrite lookup_insert_ne.
Qed.

Lemma handleConn_dispatch_witness :
  handleConn refCodec pick_first 1 (conn_of [x41 :: frame [x07]] Closed)
    (RegisterHandler x41 echo (NewTCPServer 9988)) w0
  = Ret (mkConn [] Closed [frame [x07]] None "",
         RegisterHandler x41 echo (NewTCPServer 9988), w0)
  ∧ ∀ t', t' ≠ x41 →
      handlerMap (RegisterHandler x41 echo (NewTCPServer 9988)) !! t'
      = handlerMap (NewTCPServer 9988) !! t'.
Proof.
  apply (handleConn_dispatch refCodec pick_first 0 (conn_of [x41 :: frame [x07]] Closed)
           x41 echo [x07] (NewTCPServer 9988) w0);
    [reflexivity | reflexivity | simpl; lia].
Defined.




(** A message with a payload is only dispatched once its sender has closed
    the connection: while the connection stays open, [handleConn] waits in
    [ReadPrefix], whatever the handler.  The peer-share request, whose
    sender waits for the answer, is such a message. *)
Theorem handleConn_blocks_on_open_connection (codec : Codec)
    (pick : nat → gset NetAddress → list NetAddress → gset NetAddress → option NetAddress)
    (fuel : nat) (c : Conn) (t : byte) (chunk : list byte) (rest : list (list byte))
    (tcps : TCPServer) (w : World) :
  incoming c = (t :: chunk) :: rest → ending c = Silent → (4 ≤ length chunk)%nat →
  0 < DecUint64 (take 4 chunk) ≤ 65536 →
  handleConn codec pick (S fuel) c tcps w = Blocked.
Proof.
  intros Hin Hend Hlen HL. unfold handleConn, Read. rewrite Hin.
  cbn [mbind Outcome_bind].
  change (take 1 (t :: chunk)) with [t]. change (drop 1 (t :: chunk)) with chunk.
  destruct chunk as [|b l] eqn:E; [simpl in Hlen; lia|]. rewrite <- E in *.
  rewrite (ReadPrefix_open_stream fuel _ chunk rest); [done|done|exact Hend|done|done].
Qed.

Lemma handleConn_blocks_on_open_connection_witness :
  handleConn refCodec pick_first 1 (conn_of [peers_request] Silent) book3 w0 = Blocked.
Proof.
  apply (handleConn_blocks_on_open_connection refCodec pick_first 0
           (conn_of [peers_request] Silent) x50 [x01; x00; x00; x00; x0a] [] book3 w0);
    [reflexivity | reflexivity | simpl; lia | vm_compute; split; congruence].
Defined.

(** ** Both ends of the three exchanges *)

(** Announce: what [SendVal('A', a)] writes, read by [handleConn] on a
    server where ['A'] is bound to [addPeer], once the sender has closed the
    connection, puts [a] into the book of the server. *)
Theorem announce_end_to_end (codec : Codec)
    (pick : nat → gset NetAddress → list NetAddress → gset NetAddress → option NetAddress)
    (fuel : nat) (a : NetAddress) (cc : Conn) (client server : TCPServer)
    (wc ws : World) :
  wfail cc = None → outgoing cc = [] →
  Unmarshal_addr codec (Marshal_addr codec a) = inr a →
  Z.of_nat (length (Marshal_addr codec a)) ≤ 65536 →
  handlerMap server !! x41 = Some h_addPeer →
  ∃ cc' sc',
    SendVal codec x41 a cc client wc = Ret (None, cc', client, wc)
    ∧ handleConn codec pick (S fuel) (loopback cc') server ws
      = Ret (sc', addressbook_add a server, ws)
    ∧ outgoing sc' = [].
Proof.
  intros Hw Hout Hdec Hlen Hh. unfold SendVal, Write. rewrite Hw, Hout.
  eexists. eexists. split; [reflexivity|].
  rewrite (handleConn_message codec pick fuel _ x41 (Marshal_addr codec a));
    [|reflexivity|reflexivity|done].
  rewrite Hh. unfold call_handler, addPeer. rewrite Hdec. cbn. done.
Qed.

Lemma announce_end_to_end_witness :
  ∃ cc' sc',
    SendVal refCodec x41 P2 (conn_of [] Silent) book3 w0 = Ret (None, cc', book3, w0)
    ∧ handleConn refCodec pick_first 1 (loopback cc') (NewTCPServer 9988) w0
      = Ret (sc', addressbook_add P2 (NewTCPServer 9988), w0)
    ∧ outgoing sc' = [].
Proof.
  apply (announce_end_to_end refCodec pick_first 0 P2 (conn_of [] Silent) book3
           (NewTCPServer 9988) w0 w0); vm_compute; (reflexivity || congruence).
Defined.

(** Hostname: the request of [learnHostname], read by [handleConn] on a
    server where ['H'] is bound to [sendHostname], is answered at once (its
    payload is empty, so the server does not wait for the end of the stream)
    with the remote address of the connection; [learnHostname], reading
    that answer, takes the host part as the node's own host and leaves the
    port, the book and the world as they were. *)
Theorem hostname_end_to_end (codec : Codec)
    (pick : nat → gset NetAddress → list NetAddress → gset NetAddress → option NetAddress)
    (SplitHostPort : string → error + (string * string))
    (fuel fuel' : nat) (sc : Conn) (server client : TCPServer) (ws wc : World)
    (h p : string) :
  incoming sc = [[x48; x00; x00; x00; x00]] → wfail sc = None → outgoing sc = [] →
  handlerMap server !! x48 = Some h_sendHostname →
  Z.of_nat (length (list_byte_of_string (remote sc))) ≤ 65536 →
  SplitHostPort (remote sc) = inr (h, p) →
  ∃ sc' cc',
    handleConn codec pick fuel sc server ws = Ret (sc', server, ws)
    ∧ outgoing sc' = [frame (list_byte_of_string (remote sc))]
    ∧ learnHostname SplitHostPort (S fuel') (loopback sc') client wc
      = Ret (None, cc', set_myAddr_Host h client, wc)
    ∧ outgoing cc' = incoming sc.
Proof.
  intros Hin Hw Hout Hh Hlen Hsplit.
  eexists. eexists. split; [|split; [|split]].
  - unfold handleConn, Read. rewrite Hin. cbn [mbind Outcome_bind firstn skipn].
    unfold ReadPrefix, Read. cbn [incoming set_incoming mbind Outcome_bind firstn skipn].
    rewrite decide_False by (intros [?|?]; done).
    change (DecUint64 _) with 0. change (0 >? maxMsgLen) with false. cbv iota.
    assert (∀ c0, ReadPrefix_loop fuel 0 [] 0 c0 = Ret (None, [], c0)) as ->
      by (intros c0; by destruct fuel).
    cbn [mbind Outcome_bind length]. rewrite decide_False by (intros ?; done).
    cbn [mbind Outcome_bind].
    rewrite Hh. unfold call_handler, sendHostname, WritePrefix, Write.
    cbn [wfail set_incoming remote outgoing]. rewrite Hw, Hout.
    cbn [mbind Outcome_bind app]. reflexivity.
  - reflexivity.
  - unfold learnHostname, Write. cbn [loopback conn_of wfail outgoing set_outgoing app].
    rewrite (ReadPrefix_roundtrip fuel' (list_byte_of_string (remote sc)));
      [|reflexivity|reflexivity|done].
    cbn [mbind Outcome_bind]. rewrite string_of_list_byte_of_string, Hsplit.
    reflexivity.
  - cbn. by rewrite Hin.
Qed.

Lemma hostname_end_to_end_witness :
  ∃ sc' cc',
    handleConn refCodec pick_first 0
      (mkConn [[x48; x00; x00; x00; x00]] Silent [] None "203.0.113.5:4001")
      book3 w0 = Ret (sc', book3, w0)
    ∧ outgoing sc' = [frame (list_byte_of_string "203.0.113.5:4001")]
    ∧ learnHostname split_host_port 1 (loopback sc') (NewTCPServer 9988) w0
      = Ret (None, cc', set_myAddr_Host "203.0.113.5" (NewTCPServer 9988), w0)
    ∧ outgoing cc' = [[x48; x00; x00; x00; x00]].
Proof.
  apply (hostname_end_to_end refCodec pick_first split_host_port 0 0
           (mkConn [[x48; x00; x00; x00; x00]] Silent [] None "203.0.113.5:4001")
           book3 (NewTCPServer 9988) w0 w0 "203.0.113.5" "4001");
    vm_compute; (reflexivity || congruence).
Defined.

(** Peer share: the answer of [sharePeers] to a request for 10 peers, read
    by [requestPeers], makes the client return nil, and every address that
    its book gains is a member of the book of the server, is not the
    client's own address, and has answered a dial. *)
Theorem peer_share_end_to_end (codec : Codec) (dial : nat → NetAddress → error + Conn)
    (pick : nat → gset NetAddress → list NetAddress → gset NetAddress → option NetAddress)
    (fuel : nat) (sc : Conn) (server client : TCPServer) (ws wc : World) :
  range_sound pick → range_complete pick →
  wfail sc = None → outgoing sc = [] →
  Unmarshal_addrs codec
    (Marshal_addrs codec (sharePeers_loop pick (clock ws) (addressbook server) 10 [] []))
  = inr (sharePeers_loop pick (clock ws) (addressbook server) 10 [] []) →
  Z.of_nat (length (Marshal_addrs codec
                      (sharePeers_loop pick (clock ws) (addressbook server) 10 [] [])))
  ≤ 65536 →
  ∃ sc' cc' client' wc',
    sharePeers codec pick sc [x0a] server ws = (None, sc')
    ∧ requestPeers codec dial (S fuel) (loopback sc') client wc
      = Ret (None, cc', client', wc')
    ∧ myAddr client' = myAddr client
    ∧ addressbook client ⊆ addressbook client'
    ∧ ∀ a, a ∈ addressbook client' → a ∉ addressbook client →
           a ∈ addressbook server ∧ a ≠ myAddr client
           ∧ ∃ k, is_reachable dial k a = true.
Proof.
  intros Hs Hc Hw Hout Hdec Hlen.
  set (addrs := sharePeers_loop pick (clock ws) (addressbook server) 10 [] []) in *.
  destruct (sharePeers_loop_spec pick Hs Hc (clock ws) (addressbook server) 10 [])
    as (_ & Hmem & _); [constructor|by intros a ?%elem_of_nil|]. fold addrs in Hmem.
  destruct (requestPeers_add_spec dial addrs client wc) as (H1 & _ & H3).
  exists (set_outgoing [frame (Marshal_addrs codec addrs)] sc).
  eexists. exists (requestPeers_add dial addrs client wc).1,
    (requestPeers_add dial addrs client wc).2.
  split; [|split; [|split; [exact H1|split]]].
  - unfold sharePeers. change (Byte.to_nat x0a) with 10%nat. fold addrs.
    unfold WritePrefix, Write. rewrite Hw, Hout. reflexivity.
  - unfold requestPeers, Write.
    cbn [loopback conn_of wfail outgoing set_outgoing app].
    rewrite (ReadPrefix_roundtrip fuel (Marshal_addrs codec addrs));
      [|reflexivity|reflexivity|done].
    cbn [mbind Outcome_bind]. rewrite Hdec.
    destruct (requestPeers_add dial addrs client wc). reflexivity.
  - intros a Ha. apply H3. by left.
  - intros a Ha Hnew. apply H3 in Ha as [?|[k [Hp Hr]]]; [done|].
    destruct (proj1 (probes_spec (myAddr client) addrs (clock wc) a)) as [Hin Hne];
      [by exists k|].
    split; [by apply Hmem|]. split; [done|by exists k].
Qed.

Lemma peer_share_end_to_end_witness :
  ∃ sc' cc' client' wc',
    sharePeers refCodec pick_first (conn_of [] Silent) [x0a] book3 w0 = (None, sc')
    ∧ requestPeers refCodec scenario_dial 1 (loopback sc') (NewTCPServer 9988) w0
      = Ret (None, cc', client', wc')
    ∧ myAddr client' = myAddr (NewTCPServer 9988)
    ∧ addressbook (NewTCPServer 9988) ⊆ addressbook client'
    ∧ ∀ a, a ∈ addressbook client' → a ∉ addressbook (NewTCPServer 9988) →
           a ∈ addressbook book3 ∧ a ≠ myAddr (NewTCPServer 9988)
           ∧ ∃ k, is_reachable scenario_dial k a = true.
Proof.
  apply (peer_share_end_to_end refCodec scenario_dial pick_first 0 (conn_of [] Silent)
           book3 (NewTCPServer 9988) w0 w0 pick_first_sound pick_first_complete);
    vm_compute; (reflexivity || congruence).
Defined.

(** There the client ends with [P1] and [P2]: [P3] does not answer. *)
Example peer_share_scenario :
  (λ r, match r with
        | Ret (err, _, tcps, _) => Some (err, elements (addressbook tcps))
        | _ => None
        end)
    (requestPeers refCodec scenario_dial 1
       (loopback (sharePeers refCodec pick_first (conn_of [] Silent) [x0a] book3 w0).2)
       (NewTCPServer 9988) w0)
  = Some (None, [P1; P2]).
Proof. vm_compute. reflexivity. Qed.

(** ** Announcements, one after another *)

Lemma announce_all_spec codec msgs tcps :
  myAddr (announce_all codec msgs tcps) = myAddr tcps
  ∧ handlerMap (announce_all codec msgs tcps) = handlerMap tcps
  ∧ ∀ a, a ∈ addressbook (announce_all codec msgs tcps) ↔
         a ∈ addressbook tcps ∨ ∃ data, data ∈ msgs ∧ Unmarshal_addr codec data = inr a.
Proof.
  revert tcps. induction msgs as [|data msgs IH]; intros tcps.
  - split; [done|]. split; [done|]. intros a. split; [by left|].
    intros [?|(d & Hd & _)]; [done|]. by apply elem_of_nil in Hd.
  - unfold announce_all. cbn [fold_left]. fold (announce_all codec msgs).
    destruct (IH (addPeer codec (conn_of [] Closed) data tcps).2) as (H1 & H2 & H3).
    unfold addPeer in *. destruct (Unmarshal_addr codec data) as [e|addr] eqn:E;
      cbn [snd] in *.
    + split; [exact H1|]. split; [exact H2|]. intros a. rewrite H3. split.
      * intros [?|(d & Hd & Hdec)]; [by left|]. right. exists d. split; [by right|done].
      * intros [?|(d & [->|Hd]%elem_of_cons & Hdec)]; [by left|congruence|].
        right. by exists d.
    + split; [exact H1|]. split; [exact H2|]. intros a. rewrite H3. cbn.
      rewrite elem_of_union, elem_of_singleton. split.
      * intros [[->|?]|(d & Hd & Hdec)]; [|by left|].
        -- right. exists data. split; [left|done].
        -- right. exists d. split; [by right|done].
      * intros [?|(d & [->|Hd]%elem_of_cons & Hdec)].
        -- left. by right.
        -- left. left. congruence.
        -- right. by exists d.
Qed.

(** After a sequence of announcements the book holds what it held before
    and the addresses that decode from the messages, and nothing else: a
    message that does not decode changes nothing, an address announced
    twice is there once, and the order of the messages does not matter. *)
Theorem announce_all_book (codec : Codec) (msgs : list (list byte)) (tcps : TCPServer) :
  (∀ a, a ∈ addressbook (announce_all codec msgs tcps) ↔
        a ∈ addressbook tcps ∨ ∃ data, data ∈ msgs ∧ Unmarshal_addr codec data = inr a)
  ∧ (∀ msgs', msgs' ≡ₚ msgs →
       addressbook (announce_all codec msgs' tcps)
       = addressbook (announce_all codec msgs tcps))
  ∧ addressbook (announce_all codec (msgs ++ msgs) tcps)
    = addressbook (announce_all codec msgs tcps).
Proof.
  pose proof (announce_all_spec codec msgs tcps) as (_ & _ & H).
  split; [exact H|]. split.
  - intros msgs' Hp. apply set_eq. intros a. rewrite H.
    destruct (announce_all_spec codec msgs' tcps) as (_ & _ & ->).
    split; (intros [?|(d & Hd & ?)]; [by left|right; exists d; split; [|done]]).
    + by rewrite <- Hp.
    + by rewrite Hp.
  - apply set_eq. intros a. rewrite H.
    destruct (announce_all_spec codec (msgs ++ msgs) tcps) as (_ & _ & ->).
    split; (intros [?|(d & Hd & ?)]; [by left|right; exists d; split; [|done]]).
    + by apply elem_of_app in Hd as [?|?].
    + apply elem_of_app. by left.
Qed.

(** [n] distinct addresses, announced one after another to a server with an
    empty book, in any order, leave a book of size [n] that holds them
    all. *)
Theorem announce_distinct (codec : Codec) (addrs order : list NetAddress)
    (tcps : TCPServer) :
  (∀ a, a ∈ addrs → Unmarshal_addr codec (Marshal_addr codec a) = inr a) →
  NoDup addrs → order ≡ₚ addrs → addressbook tcps = ∅ →
  addressbook (announce_all codec (Marshal_addr codec <$> order) tcps) = list_to_set addrs
  ∧ size (addressbook (announce_all codec (Marshal_addr codec <$> order) tcps))
    = length addrs.
Proof.
  intros Hrt Hnd Hp He.
  assert (addressbook (announce_all codec (Marshal_addr codec <$> order) tcps)
          = list_to_set addrs) as Heq.
  { apply set_eq. intros a.
    destruct (announce_all_spec codec (Marshal_addr codec <$> order) tcps) as (_ & _ & ->).
    rewrite He, elem_of_list_to_set. split.
    - intros [H|(d & Hd & Hdec)]; [by apply not_elem_of_empty in H|].
      apply list_elem_of_fmap in Hd as (b & -> & Hb). rewrite Hp in Hb.
      rewrite Hrt in Hdec by done. by simplify_eq.
    - intros Ha. right. exists (Marshal_addr codec a).
      split; [|by apply Hrt].
      apply list_elem_of_fmap. exists a. split; [done|]. by rewrite Hp. }
  split; [exact Heq|]. rewrite Heq. by apply size_list_to_set.
Qed.

Lemma announce_distinct_witness :
  addressbook (announce_all refCodec (Marshal_addr refCodec <$> [P3; P1; P2])
                 (NewTCPServer 9988))
  = list_to_set [P1; P2; P3]
  ∧ size (addressbook (announce_all refCodec (Marshal_addr refCodec <$> [P3; P1; P2])
                         (NewTCPServer 9988)))
    = length [P1; P2; P3].
Proof.
  apply (announce_distinct refCodec [P1; P2; P3] [P3; P1; P2] (NewTCPServer 9988)).
  - intros a Ha. repeat (apply elem_of_cons in Ha as [->|Ha]; [vm_compute; reflexivity|]).
    by apply elem_of_nil in Ha.
  - apply (bool_decide_unpack _). vm_compute. exact I.
  - apply (Permutation_cons_append [P1; P2] P3).
  - reflexivity.
Defined.

(** ** A registered function, called through the dispatcher *)

(** After [RegisterRPC(t, fn)] for a function [fn] of type [func(T) error],
    a message with the tag [t] makes the server decode the payload as a [T]
    and call [fn] once, with the decoded value, when it decodes, and not at
    all when it does not; the server itself is not changed by the call. *)
Theorem RegisterRPC_dispatch (codec : Codec)
    (pick : nat → gset NetAddress → list NetAddress → gset NetAddress → option NetAddress)
    (fuel : nat) (c : Conn) (t : byte) (T : GoType) (code : list GoVal → list GoVal)
    (b : list byte) (tcps : TCPServer) (w : World) :
  incoming c = [t :: frame b] → ending c = Closed → Z.of_nat (length b) ≤ 65536 →
  (∀ v, ∃ e, code [v] = [Gv_error e]) →
  ∃ tcps1,
    RegisterRPC t (Some (T_func [T] [T_error], v_func code)) tcps = Ret (None, tcps1)
    ∧ handlerMap tcps1 !! t = Some (h_sfn (T_func [T] [T_error]) (v_func code))
    ∧ handleConn codec pick (S fuel) c tcps1 w
      = Ret (set_incoming [] c, tcps1,
             match Unmarshal_val codec T b with
             | inl _ => w
             | inr v => log_call [v] w
             end).
Proof.
  intros Hin Hend Hlen Hcode. eexists. split; [reflexivity|].
  split; [cbn; by rewrite lookup_insert_eq|].
  rewrite (handleConn_message codec pick fuel c t b) by done.
  cbn [RegisterHandler handlerMap]. rewrite lookup_insert_eq.
  unfold call_handler, sfn. cbn [In_ lookup list_lookup mbind Outcome_bind].
  destruct (Unmarshal_val codec T b) as [e|v]; [done|].
  cbn [Call_value mbind Outcome_bind]. destruct (Hcode v) as [e ->].
  by destruct e.
Qed.

Lemma RegisterRPC_dispatch_witness :
  ∃ tcps1,
    RegisterRPC x58 (Some (T_func [T_NetAddress] [T_error],
                           v_func (λ _, [Gv_error None]))) (NewTCPServer 9988)
    = Ret (None, tcps1)
    ∧ handlerMap tcps1 !! x58
      = Some (h_sfn (T_func [T_NetAddress] [T_error]) (v_func (λ _, [Gv_error None])))
    ∧ handleConn refCodec pick_first 1 (conn_of [x58 :: frame (enc_addr P1)] Closed)
        tcps1 w0
      = Ret (conn_of [] Closed, tcps1, log_call [Gv_addr P1] w0).
Proof.
  apply (RegisterRPC_dispatch refCodec pick_first 0
           (conn_of [x58 :: frame (enc_addr P1)] Closed) x58 T_NetAddress
           (λ _, [Gv_error None]) (enc_addr P1) (NewTCPServer 9988) w0);
    [reflexivity | reflexivity | vm_compute; congruence | intros v; by eexists].
Defined.

(** ** [Broadcast] of a message *)

Lemma Call_SendVal codec dial t val na tcps w :
  ∃ err, Call dial na (SendVal codec t val) tcps w = Ret (err, tcps, tick w).
Proof.
  unfold Call, SendVal. destruct (dial (clock w) na) as [e|c]; [by eexists|].
  destruct (Write _ c) as [[n err] c']. cbn. by eexists.
Qed.

Lemma Broadcast_loop_SendVal codec dial pick t val tcps :
  range_sound pick → range_complete pick →
  ∀ n fuel seen w,
    (n + length seen = size (addressbook tcps))%nat → (n ≤ fuel)%nat →
    NoDup seen → (∀ x, x ∈ seen → x ∈ addressbook tcps) →
    Broadcast_loop dial pick fuel (SendVal codec t val) (addressbook tcps) seen tcps w
    = Ret (tcps, ticks n w).
Proof.
  intros Hs Hc. induction n as [|n IH]; intros fuel seen w Hn Hf Hnd Hin.
  - destruct (pick (clock w) (addressbook tcps) seen (addressbook tcps)) as [a|] eqn:E.
    + destruct (seen_room pick Hs (addressbook tcps) seen tcps a _ _ Hnd Hin
                  (reflexivity _) E) as (_ & _ & ?). lia.
    + destruct fuel; cbn [Broadcast_loop]; rewrite E; by destruct w.
  - destruct (pick (clock w) (addressbook tcps) seen (addressbook tcps)) as [a|] eqn:E.
    + destruct (seen_room pick Hs (addressbook tcps) seen tcps a _ _ Hnd Hin
                  (reflexivity _) E) as (Hnd' & Hin' & ?).
      destruct fuel as [|fuel]; [lia|]. cbn [Broadcast_loop]. rewrite E.
      destruct (Call_SendVal codec dial t val a tcps w) as [err ->].
      cbn [mbind Outcome_bind]. rewrite IH; try done.
      * unfold ticks, tick. cbn [clock invoked]. do 3 f_equal. lia.
      * rewrite length_app. simpl. lia.
      * lia.
    + pose proof (Hc _ _ _ _ (reflexivity _) E) as Hall.
      pose proof (NoDup_length_eq_size _ _ Hnd Hin Hall). lia.
Qed.

(** For a message, whose sending does not depend on the answer: the clock
    has ticked once for every peer of the book and the server is as it
    was. *)
Lemma Broadcast_SendVal (codec : Codec) (dial : nat → NetAddress → error + Conn)
    (pick : nat → gset NetAddress → list NetAddress → gset NetAddress → option NetAddress)
    (fuel : nat) (t : byte) (val : NetAddress) (tcps : TCPServer) (w : World) :
  range_sound pick → range_complete pick → (size (addressbook tcps) ≤ fuel)%nat →
  Broadcast dial pick fuel (SendVal codec t val) tcps w
  = Ret (tcps, mkWorld (size (addressbook tcps) + clock w) (invoked w)).
Proof.
  intros Hs Hc Hf. unfold Broadcast.
  rewrite (Broadcast_loop_SendVal codec dial pick t val tcps Hs Hc
             (size (addressbook tcps)) fuel [] w);
    [reflexivity | simpl; lia | lia | constructor | by intros x ?%elem_of_nil].
Qed.

Lemma Call_keeps_book dial na fn s w :
  keeps_book fn →
  ∃ e s' w', Call dial na fn s w = Ret (e, s', w') ∧ addressbook s' = addressbook s.
Proof.
  intros Hfn. unfold Call. destruct (dial (clock w) na) as [e|c]; [by eauto 10|].
  destruct (Hfn c s (tick w)) as (e & c' & s' & w' & -> & ?). cbn. by eauto 10.
Qed.

Lemma Broadcast_loop_call_each dial pick fn (B : gset NetAddress) :
  range_sound pick → range_complete pick → keeps_book fn →
  ∀ n fuel seen s w,
    addressbook s = B → (n + length seen = size B)%nat → (n ≤ fuel)%nat →
    NoDup seen → (∀ x, x ∈ seen → x ∈ B) →
    ∃ order,
      NoDup (seen ++ order) ∧ (∀ a, a ∈ seen ++ order ↔ a ∈ B)
      ∧ Broadcast_loop dial pick fuel fn B seen s w = call_each dial fn order s w.
Proof.
  intros Hs Hc Hfn. induction n as [|n IH]; intros fuel seen s w HB Hn Hf Hnd Hin.
  - destruct (pick (clock w) B seen (addressbook s)) as [a|] eqn:E.
    + rewrite HB in E. apply Hs in E as [Ha Hnew].
      assert (NoDup (seen ++ [a])) as Hnd'.
      { apply list.NoDup_app. split; [done|]. split; [|apply NoDup_singleton].
        intros x Hx ->%list_elem_of_singleton. done. }
      assert (∀ x, x ∈ seen ++ [a] → x ∈ B) as Hin'.
      { intros x [?| ->%list_elem_of_singleton]%elem_of_app; auto. }
      pose proof (NoDup_length_le_size _ _ Hnd' Hin') as Hle.
      rewrite length_app in Hle. simpl in Hle. lia.
    + exists []. rewrite app_nil_r. split; [done|]. split.
      * intros a. split; [apply Hin|]. rewrite HB in E.
        by apply (Hc _ _ _ _ (reflexivity _) E).
      * destruct fuel; cbn [Broadcast_loop call_each]; by rewrite E.
  - destruct (pick (clock w) B seen (addressbook s)) as [a|] eqn:E.
    + destruct fuel as [|fuel]; [lia|].
      pose proof E as E'. rewrite HB in E'. apply Hs in E' as [Ha Hnew].
      destruct (Call_keeps_book dial a fn s w Hfn) as (e & s1 & w1 & HC & Hb1).
      destruct (IH fuel (seen ++ [a]) s1 w1) as (order & H1 & H2 & H3).
      * congruence.
      * rewrite length_app. simpl. lia.
      * lia.
      * apply list.NoDup_app. split; [done|]. split; [|apply NoDup_singleton].
        intros x Hx ->%list_elem_of_singleton. done.
      * intros x [?| ->%list_elem_of_singleton]%elem_of_app; auto.
      * exists (a :: order). rewrite <- app_assoc in H1, H2. cbn [app] in H1, H2.
        split; [done|]. split; [done|].
        cbn [Broadcast_loop call_each]. rewrite E, HC. cbn [mbind Outcome_bind]. done.
    + rewrite HB in E. pose proof (Hc _ _ _ _ (reflexivity _) E) as Hall.
      pose proof (NoDup_length_eq_size _ _ Hnd Hin Hall). lia.
Qed.

(** [Broadcast(fn)], for an [fn] that always returns and does not touch the
    book, is [na.Call(fn)] for every peer [na] of the book exactly once,
    one after the other: there is a list without duplicates, whose members
    are those of the book, such that [Broadcast] does what calling each
    address of the list in turn does. *)
Theorem Broadcast_calls_each_peer_once (dial : nat → NetAddress → error + Conn)
    (pick : nat → gset NetAddress → list NetAddress → gset NetAddress → option NetAddress)
    (fn : Conn → TCPServer → World → Outcome (option error * Conn * TCPServer * World))
    (fuel : nat) (tcps : TCPServer) (w : World) :
  range_sound pick → range_complete pick → keeps_book fn →
  (size (addressbook tcps) ≤ fuel)%nat →
  ∃ order,
    NoDup order
    ∧ (∀ a, a ∈ order ↔ a ∈ addressbook tcps)
    ∧ Broadcast dial pick fuel fn tcps w = call_each dial fn order tcps w.
Proof.
  intros Hs Hc Hfn Hf.
  destruct (Broadcast_loop_call_each dial pick fn (addressbook tcps) Hs Hc Hfn
              (size (addressbook tcps)) fuel [] tcps w)
    as (order & H1 & H2 & H3);
    [done | simpl; lia | lia | constructor | by intros x ?%elem_of_nil |].
  exists order. done.
Qed.

Lemma note_remote_keeps_book : keeps_book note_remote.
Proof. intros c s w. unfold note_remote. by eauto 10. Qed.

Lemma Broadcast_calls_each_peer_once_witness :
  ∃ order,
    NoDup order
    ∧ (∀ a, a ∈ order ↔ a ∈ addressbook book3)
    ∧ Broadcast named_dial pick_first 3 note_remote book3 w0
      = call_each named_dial note_remote order book3 w0.
Proof.
  apply (Broadcast_calls_each_peer_once named_dial pick_first note_remote 3 book3 w0
           pick_first_sound pick_first_complete note_remote_keeps_book).
  vm_compute. lia.
Defined.

(** With it the order shows: on the book of three peers, with connections
    that carry the host that was dialled, the last peer called is the last
    of the iteration. *)
Example Broadcast_note_remote :
  (λ r, match r with Ret (tcps, w) => Some (Host (myAddr tcps), clock w) | _ => None end)
    (Broadcast named_dial pick_first 3
       note_remote book3 w0)
  = Some ("198.51.100.2", 3%nat).
Proof. vm_compute. reflexivity. Qed.

(** ** The snapshot of the book *)

Lemma AddressBook_loop_spec pick k src :
  range_sound pick → range_complete pick →
  ∀ n fuel seen,
    (n + length seen = size src)%nat → (n ≤ fuel)%nat →
    NoDup seen → (∀ x, x ∈ seen → x ∈ src) →
    ∃ book, AddressBook_loop pick fuel k src seen seen = Ret book
            ∧ NoDup book ∧ (∀ a, a ∈ book ↔ a ∈ src).
Proof.
  intros Hs Hc. induction n as [|n IH]; intros fuel seen Hn Hf Hnd Hin.
  - destruct (pick k src seen src) as [a|] eqn:E.
    + apply Hs in E as [Ha Hnew].
      assert (NoDup (seen ++ [a])) as Hnd'.
      { apply list.NoDup_app. split; [done|]. split; [|apply NoDup_singleton].
        intros x Hx ->%list_elem_of_singleton. done. }
      assert (∀ x, x ∈ seen ++ [a] → x ∈ src) as Hin'.
      { intros x [?| ->%list_elem_of_singleton]%elem_of_app; auto. }
      pose proof (NoDup_length_le_size _ _ Hnd' Hin') as Hle.
      rewrite length_app in Hle. simpl in Hle. lia.
    + exists seen. split; [destruct fuel; cbn; by rewrite E|]. split; [done|].
      intros a. split; [apply Hin|]. by apply (Hc _ _ _ _ (reflexivity _) E).
  - destruct (pick k src seen src) as [a|] eqn:E.
    + destruct fuel as [|fuel]; [lia|]. cbn [AddressBook_loop]. rewrite E.
      apply Hs in E as [Ha Hnew]. apply IH.
      * rewrite length_app. simpl. lia.
      * lia.
      * apply list.NoDup_app. split; [done|]. split; [|apply NoDup_singleton].
        intros x Hx ->%list_elem_of_singleton. done.
      * intros x [?| ->%list_elem_of_singleton]%elem_of_app; auto.
    + pose proof (Hc _ _ _ _ (reflexivity _) E) as Hall.
      pose proof (NoDup_length_eq_size _ _ Hnd Hin Hall). lia.
Qed.

(** [AddressBook] returns every peer of the book exactly once: the list
    has no duplicates, its members are those of the book, and so it is as
    long as the book is large. *)
Theorem AddressBook_snapshot
    (pick : nat → gset NetAddress → list NetAddress → gset NetAddress → option NetAddress)
    (fuel : nat) (tcps : TCPServer) (w : World) :
  range_sound pick → range_complete pick → (size (addressbook tcps) ≤ fuel)%nat →
  ∃ book, AddressBook pick fuel tcps w = Ret book
          ∧ NoDup book
          ∧ (∀ a, a ∈ book ↔ a ∈ addressbook tcps)
          ∧ length book = size (addressbook tcps).
Proof.
  intros Hs Hc Hf.
  destruct (AddressBook_loop_spec pick (clock w) (addressbook tcps) Hs Hc
              (size (addressbook tcps)) fuel [])
    as (book & Hb & Hnd & Hmem);
    [simpl; lia | lia | constructor | by intros x ?%elem_of_nil |].
  exists book. split; [exact Hb|]. split; [done|]. split; [done|].
  apply NoDup_length_eq_size; [done| |]; intros a; by rewrite Hmem.
Qed.

Lemma AddressBook_snapshot_witness :
  ∃ book, AddressBook pick_first 3 book3 w0 = Ret book
          ∧ NoDup book
          ∧ (∀ a, a ∈ book ↔ a ∈ addressbook book3)
          ∧ length book = size (addressbook book3).
Proof.
  apply (AddressBook_snapshot pick_first 3 book3 w0
           pick_first_sound pick_first_complete).
  vm_compute. lia.
Defined.

(** ** What [Bootstrap] changes *)

Lemma grows_refl dial s : grows dial s s.
Proof. split; [done|]. split; [done|]. split; [done|]. intros a ?. by left. Qed.

Lemma grows_trans dial s1 s2 s3 : grows dial s1 s2 → grows dial s2 s3 → grows dial s1 s3.
Proof.
  intros (A1 & A2 & A3 & A4) (B1 & B2 & B3 & B4).
  split; [congruence|]. split; [congruence|]. split; [by etrans|].
  intros a Ha. apply B4 in Ha as [Ha|?]; [|by right]. by apply A4.
Qed.

Lemma requestPeers_add_grows dial addrs s w :
  grows dial s (requestPeers_add dial addrs s w).1.
Proof.
  destruct (requestPeers_add_spec dial addrs s w) as (H1 & H2 & H3).
  split; [by rewrite H1|]. split; [done|]. split.
  - intros a Ha. apply H3. by left.
  - intros a Ha. apply H3 in Ha as [?|(k & _ & ?)]; [by left|right; by exists k].
Qed.

Lemma requestPeers_grows codec dial fuel c s w e c' s' w' :
  requestPeers codec dial fuel c s w = Ret (e, c', s', w') → grows dial s s'.
Proof.
  unfold requestPeers. destruct (Write _ c) as [[n werr] c1].
  destruct werr; [intros E; simplify_eq; apply grows_refl|].
  destruct (ReadPrefix fuel c1) as [[[data rerr] c2]| | |]; cbn [mbind Outcome_bind];
    try done.
  destruct rerr; [intros E; simplify_eq; apply grows_refl|].
  destruct (Unmarshal_addrs codec data) as [?|addrs]; [intros E; simplify_eq; apply grows_refl|].
  pose proof (requestPeers_add_grows dial addrs s w) as Hg.
  destruct (requestPeers_add dial addrs s w) as [s2 w2]. intros E. by simplify_eq.
Qed.

Lemma learnHostname_grows dial SplitHostPort fuel c s w e c' s' w' :
  learnHostname SplitHostPort fuel c s w = Ret (e, c', s', w') → grows dial s s'.
Proof.
  unfold learnHostname. destruct (Write _ c) as [[n werr] c1].
  destruct werr; [intros E; simplify_eq; apply grows_refl|].
  destruct (ReadPrefix fuel c1) as [[[data rerr] c2]| | |]; cbn [mbind Outcome_bind];
    try done.
  destruct rerr; [intros E; simplify_eq; apply grows_refl|].
  destruct (SplitHostPort _) as [?|[host port]]; intros E; simplify_eq;
    [apply grows_refl|].
  split; [done|]. split; [done|]. split; [done|]. intros a ?. by left.
Qed.

Lemma SendVal_grows codec dial t val c s w e c' s' w' :
  SendVal codec t val c s w = Ret (e, c', s', w') → grows dial s s'.
Proof.
  unfold SendVal. destruct (Write _ c) as [[n werr] c1]. intros E. simplify_eq.
  apply grows_refl.
Qed.

Lemma Call_grows dial na fn s w e s' w' :
  (∀ c s w e c' s' w', fn c s w = Ret (e, c', s', w') → grows dial s s') →
  Call dial na fn s w = Ret (e, s', w') → grows dial s s'.
Proof.
  intros Hfn. unfold Call. destruct (dial (clock w) na) as [?|c].
  - intros E. simplify_eq. apply grows_refl.
  - destruct (fn c s (tick w)) as [[[[e1 c1] s1] w1]| | |] eqn:E1;
      cbn [mbind Outcome_bind]; try done.
    intros E. simplify_eq. by eapply Hfn.
Qed.

Lemma Broadcast_loop_grows dial pick fn :
  (∀ c s w e c' s' w', fn c s w = Ret (e, c', s', w') → grows dial s s') →
  ∀ fuel start seen s w s' w',
    Broadcast_loop dial pick fuel fn start seen s w = Ret (s', w') → grows dial s s'.
Proof.
  intros Hfn. induction fuel as [|fuel IH]; intros start seen s w s' w';
    cbn [Broadcast_loop];
    (destruct (pick (clock w) start seen (addressbook s)) as [a|];
     [|intros E; simplify_eq; apply grows_refl]); [done|].
  destruct (Call dial a fn s w) as [[[e1 s1] w1]| | |] eqn:EC; cbn [mbind Outcome_bind];
    try done.
  intros E. apply (grows_trans dial s s1 s').
  - by eapply Call_grows.
  - by eapply IH.
Qed.

Lemma Bootstrap_learn_grows dial pick SplitHostPort :
  ∀ fuel start seen s w s' w',
    Bootstrap_learn dial pick SplitHostPort fuel start seen s w = Ret (s', w') →
    grows dial s s'.
Proof.
  induction fuel as [|fuel IH]; intros start seen s w s' w';
    cbn [Bootstrap_learn];
    (destruct (pick (clock w) start seen (addressbook s)) as [a|];
     [|intros E; simplify_eq; apply grows_refl]); [done|].
  destruct (Call dial a (learnHostname SplitHostPort fuel) s w) as [[[e1 s1] w1]| | |] eqn:EC;
    cbn [mbind Outcome_bind]; try done.
  assert (grows dial s s1) as Hg.
  { eapply Call_grows; [|exact EC]. intros. by eapply learnHostname_grows. }
  destruct e1; intros E; [|by simplify_eq].
  apply (grows_trans dial s s1 s'); [done|by eapply IH].
Qed.

Lemma Bootstrap_seed_grows dial peers s w :
  grows dial s (Bootstrap_seed dial peers s w).1.
Proof.
  destruct (Bootstrap_seed_spec dial peers s w) as (H1 & H2 & _ & H3).
  split; [by rewrite H1|]. split; [done|]. split.
  - intros a Ha. apply H3. by left.
  - intros a Ha. apply H3 in Ha as [?|(i & _ & ?)]; [by left|right; by eexists].
Qed.

(** Whenever [Bootstrap] returns, the node has kept its port and its
    handlers, its book holds every peer it held before, and every peer it
    has gained has answered a dial: an address that never answers is never
    added. *)
Theorem Bootstrap_only_adds_reachable_peers (codec : Codec)
    (dial : nat → NetAddress → error + Conn)
    (pick : nat → gset NetAddress → list NetAddress → gset NetAddress → option NetAddress)
    (SplitHostPort : string → error + (string * string))
    (BootstrapPeers : list NetAddress) (fuel : nat)
    (tcps tcps' : TCPServer) (w w' : World) (err : option error) :
  Bootstrap codec dial pick SplitHostPort BootstrapPeers fuel tcps w
  = Ret (err, tcps', w') →
  Port (myAddr tcps') = Port (myAddr tcps)
  ∧ handlerMap tcps' = handlerMap tcps
  ∧ addressbook tcps ⊆ addressbook tcps'
  ∧ ∀ a, a ∈ addressbook tcps' →
         a ∈ addressbook tcps ∨ ∃ k, is_reachable dial k a = true.
Proof.
  unfold Bootstrap.
  pose proof (Bootstrap_seed_grows dial BootstrapPeers tcps w) as G1.
  destruct (Bootstrap_seed dial BootstrapPeers tcps w) as [t1 w1]. cbn [fst] in G1.
  destruct (Bootstrap_learn _ _ _ _ _ _ t1 w1) as [[t2 w2]| | |] eqn:E2;
    cbn [mbind Outcome_bind]; try done.
  apply Bootstrap_learn_grows in E2.
  destruct (Broadcast _ _ _ _ t2 w2) as [[t3 w3]| | |] eqn:E3;
    cbn [mbind Outcome_bind]; try done.
  apply Broadcast_loop_grows in E3; [|intros; by eapply requestPeers_grows].
  destruct (Broadcast _ _ _ _ t3 w3) as [[t4 w4]| | |] eqn:E4;
    cbn [mbind Outcome_bind]; try done.
  apply Broadcast_loop_grows in E4; [|intros; by eapply SendVal_grows].
  intros E. simplify_eq.
  exact (grows_trans _ _ _ _ (grows_trans _ _ _ _ (grows_trans _ _ _ _ G1 E2) E3) E4).
Qed.

(** With no seed peers, which is how the package variable is initialised,
    and an empty book, [Bootstrap] dials nobody and changes nothing. *)
Theorem Bootstrap_without_seeds (codec : Codec) (dial : nat → NetAddress → error + Conn)
    (pick : nat → gset NetAddress → list NetAddress → gset NetAddress → option NetAddress)
    (SplitHostPort : string → error + (string * string))
    (fuel : nat) (tcps : TCPServer) (w : World) :
  range_sound pick → addressbook tcps = ∅ →
  Bootstrap codec dial pick SplitHostPort [] fuel tcps w = Ret (None, tcps, w).
Proof.
  intros Hs He.
  assert (∀ k start seen, pick k start seen (addressbook tcps) = None) as Hnone.
  { intros k start seen. destruct (pick k start seen (addressbook tcps)) as [a|] eqn:E;
      [|done]. apply Hs in E as [Ha _]. rewrite He in Ha. by apply not_elem_of_empty in Ha. }
  unfold Bootstrap, Broadcast. cbn [Bootstrap_seed].
  assert (Bootstrap_learn dial pick SplitHostPort fuel (addressbook tcps) [] tcps w
          = Ret (tcps, w)) as -> by (destruct fuel; cbn; by rewrite Hnone).
  cbn [mbind Outcome_bind].
  assert (∀ fn, Broadcast_loop dial pick fuel fn (addressbook tcps) [] tcps w
                = Ret (tcps, w)) as Hb by (intros fn; destruct fuel; cbn; by rewrite Hnone).
  rewrite Hb. cbn [mbind Outcome_bind]. by rewrite Hb.
Qed.

Lemma Bootstrap_without_seeds_witness :
  Bootstrap refCodec scenario_dial pick_first split_host_port [] 0 (NewTCPServer 9988) w0
  = Ret (None, NewTCPServer 9988, w0).
Proof.
  apply (Bootstrap_without_seeds refCodec scenario_dial pick_first split_host_port 0
           (NewTCPServer 9988) w0 pick_first_sound).
  reflexivity.
Defined.

Lemma Bootstrap_only_adds_reachable_peers_witness :
  let tcps' :=
    set_myAddr_Host "203.0.113.5" (addressbook_add P2 (addressbook_add P1 (NewTCPServer 9988)))
  in
  Port (myAddr tcps') = Port (myAddr (NewTCPServer 9988))
  ∧ handlerMap tcps' = handlerMap (NewTCPServer 9988)
  ∧ addressbook (NewTCPServer 9988) ⊆ addressbook tcps'
  ∧ ∀ a, a ∈ addressbook tcps' →
         a ∈ addressbook (NewTCPServer 9988) ∨ ∃ k, is_reachable scenario_dial k a = true.
Proof.
  apply (Bootstrap_only_adds_reachable_peers refCodec scenario_dial pick_first
           split_host_port [P1] 3 (NewTCPServer 9988)
           (set_myAddr_Host "203.0.113.5"
              (addressbook_add P2 (addressbook_add P1 (NewTCPServer 9988))))
           w0 (mkWorld 8 []) None).
  vm_compute. reflexivity.
Defined.

(** When the transport fails after the prefix, the error of the transport
    is what [ReadPrefix] returns, also when all the bytes of the message had
    arrived before the failure. *)
Theorem ReadPrefix_failed_stream (fuel : nat) (c : Conn) (chunk : list byte)
    (rest : list (list byte)) (msg : string) :
  incoming c = chunk :: rest → ending c = Failed msg → (4 ≤ length chunk)%nat →
  0 < DecUint64 (take 4 chunk) ≤ 65536 →
  ReadPrefix (S fuel) c = Ret ([], Some (net_Error msg), set_incoming [] c).
Proof.
  intros Hin Hend Hlen HL.
  unfold ReadPrefix, Read. rewrite Hin. cbn [mbind Outcome_bind].
  rewrite decide_False by (rewrite length_take; intros [?|?]; [congruence|lia]).
  rewrite maxMsgLen_eq.
  destruct (Z.gtb_spec (DecUint64 (take 4 chunk)) 65536) as [?|_]; [lia|].
  cbn [ReadPrefix_loop]. rewrite (proj2 (Z.ltb_lt 0 _)) by lia.
  unfold ReadFrom. cbn [ending set_incoming]. rewrite Hend. reflexivity.
Qed.

Lemma ReadPrefix_failed_stream_witness :
  ReadPrefix 1 (conn_of [[x02; x00; x00; x00]; [x07; x08]]
                  (Failed "connection reset by peer"))
  = Ret ([], Some (net_Error "connection reset by peer"),
         conn_of [] (Failed "connection reset by peer")).
Proof.
  apply (ReadPrefix_failed_stream 0
           (conn_of [[x02; x00; x00; x00]; [x07; x08]]
              (Failed "connection reset by peer"))
           [x02; x00; x00; x00] [[x07; x08]] "connection reset by peer");
    [reflexivity | reflexivity | simpl; lia | vm_compute; split; congruence].
Defined.

(** When [requestPeers] returns an error (the request could not be written,
    the reply is no message, or it does not decode), it has probed nobody
    and the server is as it was; when it returns nil, no handler and no
    port has changed and the book has only grown. *)
Theorem requestPeers_failure_changes_nothing (codec : Codec)
    (dial : nat → NetAddress → error + Conn) (fuel : nat) (conn conn' : Conn)
    (tcps tcps' : TCPServer) (w w' : World) (err : option error) :
  requestPeers codec dial fuel conn tcps w = Ret (err, conn', tcps', w') →
  match err with
  | Some _ => tcps' = tcps ∧ w' = w
  | None =>
      myAddr tcps' = myAddr tcps ∧ handlerMap tcps' = handlerMap tcps
      ∧ addressbook tcps ⊆ addressbook tcps' ∧ invoked w' = invoked w
      ∧ (clock w ≤ clock w')%nat
  end.
Proof.
  unfold requestPeers. destruct (Write _ conn) as [[n werr] c1].
  destruct werr; [intros E; by simplify_eq|].
  destruct (ReadPrefix fuel c1) as [[[data rerr] c2]| | |]; cbn [mbind Outcome_bind];
    try done.
  destruct rerr; [intros E; by simplify_eq|].
  destruct (Unmarshal_addrs codec data) as [?|addrs]; [intros E; by simplify_eq|].
  destruct (requestPeers_add_spec dial addrs tcps w) as (H1 & H2 & H3).
  assert (invoked (requestPeers_add dial addrs tcps w).2 = invoked w
          ∧ (clock w ≤ clock (requestPeers_add dial addrs tcps w).2)%nat) as [H4 H5].
  { clear. revert tcps w. induction addrs as [|a l IH]; intros tcps w; [done|].
    cbn [requestPeers_add]. destruct (decide _); [|apply IH].
    rewrite Ping_spec. destruct (is_reachable dial (clock w) a).
    - destruct (IH (addressbook_add a tcps) (tick w)) as [-> ?]. split; [done|]. cbn in *. lia.
    - destruct (IH tcps (tick w)) as [-> ?]. split; [done|]. cbn in *. lia. }
  destruct (requestPeers_add dial addrs tcps w) as [t2 w2]. intros E. simplify_eq.
  cbn in *. split; [done|]. split; [done|]. split; [|done].
  intros a Ha. apply H3. by left.
Qed.

Lemma requestPeers_failure_changes_nothing_witness :
  book3 = book3 ∧ w0 = w0.
Proof.
  apply (requestPeers_failure_changes_nothing refCodec scenario_dial 1
           (conn_of [frame [x07]] Closed)
           (mkConn [] Closed [peers_request] None "")
           book3 book3 w0 w0 (Some (encoding_Error "could not decode"))).
  vm_compute. reflexivity.
Defined.
